(** * libc-redacted.h: block transfer and numeric primitives

    A shallow embedding of the freestanding C library [libc-redacted.h].
    Every primitive of the header is compiled in one of two ways, chosen by
    the preprocessor: the [__x86_64__] branch (inline assembly) and the
    portable [#else] branch (plain C loops).  Both branches are embedded,
    in the modules [X86_64] and [Portable].

    Memory is a finite map from addresses to bytes; an access outside the
    allocated addresses has no defined result and is modelled by [None]. *)

From Stdlib Require Import ZArith Lia Bool.
From Stdlib Require Import Floats.SpecFloat.
From stdpp Require Import base option list gmap.

Local Open Scope Z_scope.

(** ** Memory *)

Abbreviation mem := (gmap Z Byte.byte).

(** [*p] as an rvalue. *)
Definition load (m : mem) (a : Z) : option Byte.byte := m !! a.

(** [*p = v]. *)
Definition store (m : mem) (a : Z) (v : Byte.byte) : option mem :=
  if decide (is_Some (m !! a)) then Some (<[a:=v]> m) else None.

(** The value of an [unsigned char]. *)
Definition u8 (b : Byte.byte) : Z := Z.of_N (Byte.to_N b).

(** A multi-byte access reads (writes) its bytes at consecutive addresses.
    The whole datum is read before any byte of it is written. *)
Fixpoint load_bytes (k : nat) (m : mem) (a : Z) : option (list Byte.byte) :=
  match k with
  | O => Some []
  | S k' => b ← load m a; l ← load_bytes k' m (a + 1); Some (b :: l)
  end.

Fixpoint store_bytes (m : mem) (a : Z) (l : list Byte.byte) : option mem :=
  match l with
  | [] => Some m
  | b :: l' => m' ← store m a b; store_bytes m' (a + 1) l'
  end.

(** [size_t] and [uintptr_t] are 64-bit unsigned integers. *)
Definition is_size_t (n : Z) : Prop := 0 <= n < 2 ^ 64.

(** The range [[a, a+n)] lies in allocated memory. *)
Definition allocated (m : mem) (a n : Z) : Prop :=
  forall i, 0 <= i < n -> is_Some (m !! (a + i)).

(** The test of [memmove]: [s < d + n && d < s + n]. *)
Definition overlap (d s n : Z) : bool := (s <? d + n) && (d <? s + n).

(** ** The transfer loops

    [copy_loop w step k m d s] runs [k] iterations of a loop whose body
    moves one datum of [w] bytes from [s] to [d] and then advances both
    pointers by [step].  It is
    - [while (n--) *d++ = *s++;] and [rep movsb] with the direction flag
      clear, for [w = 1], [step = 1];
    - [while (n--) *d-- = *s--;] and [std; rep movsb; cld], for [w = 1],
      [step = -1];
    - [while (words--) *wd++ = *ws++;] on [size_t] pointers and [rep movsq],
      for [w = sizeof(size_t)] (8 for [movsq]) and [step = w]. *)
Fixpoint copy_loop (w : nat) (step : Z) (k : nat) (m : mem) (d s : Z)
  : option (mem * Z * Z) :=
  match k with
  | O => Some (m, d, s)
  | S k' =>
      l ← load_bytes w m s;
      m' ← store_bytes m d l;
      copy_loop w step k' m' (d + step) (s + step)
  end.

Definition rep_movsb (df : bool) (cx : Z) (m : mem) (di si : Z) :=
  copy_loop 1 (if df then -1 else 1) (Z.to_nat cx) m di si.

Definition rep_movsq (cx : Z) (m : mem) (di si : Z) :=
  copy_loop 8 8 (Z.to_nat cx) m di si.

(** ** The reference transfer: snapshot, then write

    [src[0..n)] is read left to right into a scratch buffer that is no part
    of the memory, and the buffer is then written to [dest[0..n)]. *)
Definition snapshot_write (m : mem) (dest src n : Z) : option (mem * Z) :=
  scratch ← load_bytes (Z.to_nat n) m src;
  m' ← store_bytes m dest scratch;
  Some (m', dest).


(** ** IEEE-754 binary64

    A [double] is its 64-bit pattern, the [uint64_t] member of the unions
    through which the header reads floating values: bit 63 is the sign,
    bits 62..52 the biased exponent, bits 51..0 the mantissa.  Arithmetic
    is that of [SpecFloat] for precision 53 and exponent bound 1024, in
    round to nearest, ties to even; every expression is evaluated in
    [double] and no multiply-add is fused. *)

Definition is_double (x : Z) : Prop := 0 <= x < 2 ^ 64.

Definition sign_field (x : Z) : bool := Z.testbit x 63.
Definition exp_field (x : Z) : Z := Z.land (Z.shiftr x 52) 0x7FF.
Definition frac_field (x : Z) : Z := Z.land x 0xFFFFFFFFFFFFF.

(** The value that a bit pattern denotes. *)
Definition SF_of_bits (x : Z) : spec_float :=
  if exp_field x =? 0x7FF then
    if frac_field x =? 0 then S754_infinity (sign_field x) else S754_nan
  else if exp_field x =? 0 then
    if frac_field x =? 0 then S754_zero (sign_field x)
    else S754_finite (sign_field x) (Z.to_pos (frac_field x)) (-1074)
  else
    S754_finite (sign_field x) (Z.to_pos (frac_field x + 2 ^ 52))
      (exp_field x - 1075).

Definition sign_bits (s : bool) : Z := if s then 0x8000000000000000 else 0.

(** The bit pattern of a value; a NaN that an operation produces is the
    quiet NaN with an empty payload. *)
Definition bits_of_SF (v : spec_float) : Z :=
  match v with
  | S754_zero s => sign_bits s
  | S754_infinity s => sign_bits s + 0x7FF0000000000000
  | S754_nan => 0x7FF8000000000000
  | S754_finite s m e =>
      if Z.pos m <? 2 ^ 52 then sign_bits s + Z.pos m
      else sign_bits s + (e + 1075) * 2 ^ 52 + (Z.pos m - 2 ^ 52)
  end.

Definition dadd (x y : Z) : Z := bits_of_SF (SFadd 53 1024 (SF_of_bits x) (SF_of_bits y)).
Definition dsub (x y : Z) : Z := bits_of_SF (SFsub 53 1024 (SF_of_bits x) (SF_of_bits y)).
Definition dmul (x y : Z) : Z := bits_of_SF (SFmul 53 1024 (SF_of_bits x) (SF_of_bits y)).
Definition ddiv (x y : Z) : Z := bits_of_SF (SFdiv 53 1024 (SF_of_bits x) (SF_of_bits y)).

(** [x == y], [x < y], [x <= y], [x > y], [x >= y]. *)
Definition deq (x y : Z) : bool := SFeqb (SF_of_bits x) (SF_of_bits y).
Definition dlt (x y : Z) : bool := SFltb (SF_of_bits x) (SF_of_bits y).
Definition dle (x y : Z) : bool := SFleb (SF_of_bits x) (SF_of_bits y).
Definition dgt (x y : Z) : bool := dlt y x.
Definition dge (x y : Z) : bool := dle y x.

(** The constants of the header and of the properties below. *)
Definition d_0_0 : Z := 0.
Definition d_0_5 : Z := 0x3FE0000000000000.
Definition d_1_0 : Z := 0x3FF0000000000000.
Definition d_1e_15 : Z := 0x3CD203AF9EE75616.

(** [(long long)x]: the value of [x] with its fraction discarded.  The
    conversion is undefined when that integer is no [long long], and for
    infinities and NaN. *)
Definition ll_of_double (x : Z) : option Z :=
  match SF_of_bits x with
  | S754_zero _ => Some 0
  | S754_finite s m e =>
      let q := if 0 <=? e then Z.shiftl (Z.pos m) e
               else Z.shiftr (Z.pos m) (- e) in
      let v := if s then - q else q in
      if (- 2 ^ 63 <=? v) && (v <? 2 ^ 63) then Some v else None
  | _ => None
  end.

(** [(double)v] for a [long long] [v]. *)
Definition double_of_ll (v : Z) : Z :=
  bits_of_SF (binary_normalize 53 1024 v 0 false).

(** Lines 457-460: [isnan]. *)
Definition isnan (x : Z) : bool :=
  (Z.land (Z.shiftr x 52) 0x7FF =? 0x7FF)
  && negb (Z.land x 0xFFFFFFFFFFFFF =? 0).

(** Lines 447-450: [isfinite]. *)
Definition isfinite (x : Z) : bool :=
  negb (Z.land (Z.shiftr x 52) 0x7FF =? 0x7FF).

(** Lines 462-466: [fmin]. *)
Definition fmin (x y : Z) : Z :=
  if isnan x then y
  else if isnan y then x
  else if dlt x y then x else y.

(** Lines 468-472: [fmax]. *)
Definition fmax (x y : Z) : Z :=
  if isnan x then y
  else if isnan y then x
  else if dgt x y then x else y.

(** ** The x87 unit

    A register of the x87 stack holds a value of the double extended
    format, precision 64 and exponent bound 16384.  The control word
    selects the rounding of [frndint] in its bits 11..10 (0 to nearest
    even, 1 down, 2 up, 3 toward zero); the System V ABI fixes it to
    [0x037F] at function entry: round to nearest, precision 64. *)

Definition fpu_cw_default : Z := 0x037F.

Definition rounding_control (cw : Z) : Z := Z.land (Z.shiftr cw 10) 3.

(** [fldl]: a [double] is loaded without rounding; the mantissa of a finite
    value is shifted to 64 digits. *)
Definition fldl (x : Z) : spec_float :=
  match SF_of_bits x with
  | S754_finite s m e =>
      let k := 64 - Z.pos (digits2_pos m) in
      S754_finite s (Pos.iter xO m (Z.to_pos k)) (e - k)
  | v => v
  end.

(** [fstpl] under the default control word: the register is rounded to
    [double], to nearest even. *)
Definition fstpl (v : spec_float) : Z :=
  bits_of_SF
    match v with
    | S754_finite s m e => binary_round 53 1024 s m e
    | _ => v
    end.

(** An integer magnitude as a register value of sign [s]. *)
Definition ext_of_magnitude (s : bool) (k e : Z) : spec_float :=
  binary_normalize 64 16384 (if s then - k else k) e s.

(** [frndint]: round the register to an integer in the direction [rc]. *)
Definition frndint (rc : Z) (v : spec_float) : spec_float :=
  match v with
  | S754_finite s m e =>
      if 0 <=? e then v
      else
        let q := Z.shiftr (Z.pos m) (- e) in
        let r := Z.land (Z.pos m) (Z.ones (- e)) in
        let half := Z.shiftl 1 (- e - 1) in
        let up :=
          if rc =? 0 then (half <? r) || ((r =? half) && Z.odd q)
          else if rc =? 1 then s && negb (r =? 0)
          else if rc =? 2 then negb s && negb (r =? 0)
          else false in
        ext_of_magnitude s (if up then q + 1 else q) 0
  | _ => v
  end.

(** [fsqrt] under the default control word. *)
Definition fsqrt (v : spec_float) : spec_float := SFsqrt 64 16384 v.

(** [fprem] with dividend [st0] and divisor [st1]: the new [st0] and the
    flag C2.  With [D] the difference of the two exponents, the remainder
    of the truncated quotient is delivered at once if [D < 64]; otherwise
    the dividend is reduced by a multiple of the divisor scaled by
    [2^(D - N)] and C2 reports that the reduction is incomplete.  [N], a
    number between 32 and 63, is left to the processor.  The remainder is
    exact and has the sign of the dividend. *)
Definition fprem (N : Z) (st0 st1 : spec_float) : spec_float * bool :=
  match st0, st1 with
  | S754_nan, _ | _, S754_nan => (S754_nan, false)
  | S754_infinity _, _ => (S754_nan, false)
  | _, S754_zero _ => (S754_nan, false)
  | S754_zero _, _ => (st0, false)
  | S754_finite _ _ _, S754_infinity _ => (st0, false)
  | S754_finite sx mx ex, S754_finite _ my ey =>
      let D := (Z.pos (digits2_pos mx) + ex) - (Z.pos (digits2_pos my) + ey) in
      let e := Z.min ex ey in
      let X := Z.shiftl (Z.pos mx) (ex - e) in
      let Y := Z.shiftl (Z.pos my) (ey - e) in
      if D <? 64 then (ext_of_magnitude sx (Z.rem X Y) e, false)
      else (ext_of_magnitude sx (Z.rem X (Z.shiftl Y (D - N))) e, true)
  end.

(** The loop [1: fprem; fstsw %ax; testb $4, %ah; jnz 1b]. *)
Fixpoint fprem_loop (fuel : nat) (N : Z) (st0 st1 : spec_float)
  : option spec_float :=
  match fuel with
  | O => None
  | S fuel' =>
      let '(st0, c2) := fprem N st0 st1 in
      if c2 then fprem_loop fuel' N st0 st1 else Some st0
  end.

(** ** Characters, fills and scans *)

(** The byte of value [c mod 256]: the conversions [(unsigned char)c] and
    [(char)c] of an [int] [c]. *)
Definition byte_of_int (c : Z) : Byte.byte :=
  default Byte.x00 (Byte.of_N (Z.to_N (c mod 256))).

#[global] Instance byte_eq_decision : EqDecision Byte.byte :=
  Byte.byte_eq_dec.

(** The terminator ['\0'] and the null pointer. *)
Definition NUL : Byte.byte := Byte.x00.
Definition NULL : Z := 0.

(** [fill_loop k m p v] runs [k] iterations of [*p++ = v]: the loop
    [while (n--) *p++ = v;] and [rep stosb] with the direction flag
    clear.  The pointer after the last store is returned with the
    memory. *)
Fixpoint fill_loop (k : nat) (m : mem) (p : Z) (v : Byte.byte)
  : option (mem * Z) :=
  match k with
  | O => Some (m, p)
  | S k' => m' ← store m p v; fill_loop k' m' (p + 1) v
  end.

Definition rep_stosb (cx : Z) (m : mem) (di : Z) (al : Byte.byte) :=
  fill_loop (Z.to_nat cx) m di al.

(** [repne scasb]: while the count is not zero, compare [al] with the byte
    at [di], advance [di], decrement the count, and stop when the two were
    equal.  The final [di] and count are returned.  [fuel] bounds the
    number of bytes compared; [None] when it is used up or when a byte
    outside the allocated memory is read. *)
Fixpoint repne_scasb (fuel : nat) (m : mem) (al : Byte.byte) (di cx : Z)
  : option (Z * Z) :=
  match fuel with
  | O => None
  | S fuel' =>
      if cx =? 0 then Some (di, cx)
      else
        b ← load m di;
        let di := di + 1 in
        let cx := cx - 1 in
        if decide (b = al) then Some (di, cx)
        else repne_scasb fuel' m al di cx
  end.

(** [while ( *s++ ) len++;] on a [size_t] counter. *)
Fixpoint count_loop (fuel : nat) (m : mem) (s len : Z) : option Z :=
  match fuel with
  | O => None
  | S fuel' =>
      b ← load m s;
      if decide (b = NUL) then Some len
      else count_loop fuel' m (s + 1) ((len + 1) mod 2 ^ 64)
  end.

(** [(int)v] for a 64-bit [v]: the low 32 bits, read as two's complement. *)
Definition int_of_long (v : Z) : Z :=
  let r := v mod 2 ^ 32 in
  if r <? 2 ^ 31 then r else r - 2 ^ 32.

(** [andpd]: the bitwise and of two registers, on the low quadword that
    holds a [double]. *)
Definition andpd (a b : Z) : Z := Z.land a b.
Module X86_64.


(** The sequence that the header writes out four times, in [memcpy]
    (lines 18-33) and on the three forward paths of [memmove] (lines
    73-88 and 118-133): [rep movsq] over [n / 8] quadwords when the count
    and both addresses allow it, then [rep movsb] over what is left. *)
Definition movs_forward (m : mem) (d s n : Z) : option mem :=
  '(m, d, s, n) ←
    (if (8 <=? n) && (Z.land d 7 =? 0) && (Z.land s 7 =? 0) then
       let words := n / 8 in
       '(m, d, s) ← rep_movsq words m d s;
       Some (m, d, s, Z.land n 7)
     else Some (m, d, s, n));
  '(m, _, _) ← rep_movsb false n m d s;
  Some m.

(** Lines 12-33 and 56: the [__x86_64__] branch of [memcpy]. *)
Definition memcpy (m : mem) (dest src n : Z) : option (mem * Z) :=
  let d := dest in
  let s := src in
  m ← movs_forward m d s n;
  Some (m, dest).

(** Lines 59-142, [__x86_64__] branches. *)
Definition memmove (m : mem) (dest src n : Z) : option (mem * Z) :=
  let d := dest in
  let s := src in
  if (d =? s) || (n =? 0) then Some (m, dest)
  else if overlap d s n then
    if d <? s then
      m ← movs_forward m d s n;
      Some (m, dest)
    else
      let d := d + (n - 1) in
      let s := s + (n - 1) in
      '(m, _, _) ← rep_movsb true n m d s;
      Some (m, dest)
  else
    m ← movs_forward m d s n;
    Some (m, dest).

(** Lines 486-497: [trunc] is [fldl; frndint; fstpl], and [frndint]
    rounds as the control word in force says. *)
Definition trunc (cw : Z) (x : Z) : Z :=
  fstpl (frndint (rounding_control cw) (fldl x)).

(** Lines 511-528: [floor] sets bit [0x400] of the control word for the
    time of [frndint] and puts the saved word back before the store. *)
Definition floor (cw : Z) (x : Z) : Z :=
  let saved := cw in
  let cw := Z.lor saved 0x400 in
  let st0 := frndint (rounding_control cw) (fldl x) in
  let cw := saved in
  fstpl st0.

(** Lines 539-556: [ceil], the same with bit [0x800]. *)
Definition ceil (cw : Z) (x : Z) : Z :=
  let saved := cw in
  let cw := Z.lor saved 0x800 in
  let st0 := frndint (rounding_control cw) (fldl x) in
  let cw := saved in
  fstpl st0.

(** Lines 567-569: [round]. *)
Definition round (cw : Z) (x : Z) : Z := floor cw (dadd x d_0_5).

(** Lines 583-594: [sqrt] is [fldl; fsqrt; fstpl]. *)
Definition sqrt (x : Z) : Z := fstpl (fsqrt (fldl x)).

(** Lines 628-644: [fmod] loads [y], then [x], and repeats [fprem] until
    C2 is clear. *)
Definition fmod (fuel : nat) (N : Z) (x y : Z) : option Z :=
  let st1 := fldl y in
  let st0 := fldl x in
  st0 ← fprem_loop fuel N st0 st1;
  Some (fstpl st0).


(** Lines 144-153 and 160: [memset] is [rep stosb] with [al] the
    [unsigned char] value of [c]. *)
Definition memset (m : mem) (s c n : Z) : option (mem * Z) :=
  let p := s in
  '(m, _) ← rep_stosb n m p (byte_of_int c);
  Some (m, s).

(** Lines 179-189 and 196: [strlen] scans for a zero byte with the count
    register set to [~0UL] and recovers the length from what is left of
    it.  The statement gives the compiler the pointer as an input and
    nothing else: no memory operand and no memory clobber say that bytes
    are read, and [%rdi], which the instruction advances, is not an
    output.  The bytes scanned are therefore those that the memory of the
    machine holds when the instruction runs, and the stores that the C
    program makes before the call need not have reached it.  [hw] is
    that memory of the machine, not the memory of the C program: what
    [strlen] returns for a string of the program is not determined by
    this header. *)
Definition strlen (fuel : nat) (hw : mem) (s : Z) : option Z :=
  '(_, len) ← repne_scasb fuel hw (byte_of_int 0) s (2 ^ 64 - 1);
  let len := ((2 ^ 64 - 1 - len) - 1) mod 2 ^ 64 in
  Some len.

(** Lines 402-405: [fabs] is [andpd] with the mask [0x7FFFFFFFFFFFFFFF]. *)
Definition fabs (x : Z) : Z := andpd x 0x7FFFFFFFFFFFFFFF.
End X86_64.

Module Portable.


(** Lines 12-15, 35-53 and 56: the portable branch of [memcpy].
    [wsz] is [sizeof(size_t)] of the target. *)
Definition memcpy (wsz : Z) (m : mem) (dest src n : Z) : option (mem * Z) :=
  let d := dest in
  let s := src in
  '(m, d, s, n) ←
    (if (wsz <=? n) && (Z.land d (wsz - 1) =? 0)
        && (Z.land s (wsz - 1) =? 0) then
       let words := n / wsz in
       '(m, wd, ws) ← copy_loop (Z.to_nat wsz) wsz (Z.to_nat words) m d s;
       Some (m, wd, ws, Z.land n (wsz - 1))
     else Some (m, d, s, n));
  '(m, _, _) ← copy_loop 1 1 (Z.to_nat n) m d s;
  Some (m, dest).

(** Lines 59-142, portable branches. *)
Definition memmove (m : mem) (dest src n : Z) : option (mem * Z) :=
  let d := dest in
  let s := src in
  if (d =? s) || (n =? 0) then Some (m, dest)
  else if overlap d s n then
    if d <? s then
      '(m, _, _) ← copy_loop 1 1 (Z.to_nat n) m d s;
      Some (m, dest)
    else
      let d := d + (n - 1) in
      let s := s + (n - 1) in
      '(m, _, _) ← copy_loop 1 (-1) (Z.to_nat n) m d s;
      Some (m, dest)
  else
    '(m, _, _) ← copy_loop 1 1 (Z.to_nat n) m d s;
    Some (m, dest).

(** Lines 402, 407-409: [fabs] clears the sign bit. *)
Definition fabs (x : Z) : Z := Z.land x 0x7FFFFFFFFFFFFFFF.

(** Lines 486, 499-503: [trunc] converts to [long long] and back, by the
    same expression on both sides of its test. *)
Definition trunc (x : Z) : option Z :=
  if dge x d_0_0 then v ← ll_of_double x; Some (double_of_ll v)
  else v ← ll_of_double x; Some (double_of_ll v).

(** Lines 511, 530-531: [floor]. *)
Definition floor (x : Z) : option Z :=
  t ← trunc x;
  Some (if dgt t x then dsub t d_1_0 else t).

(** Lines 539, 558-559: [ceil]. *)
Definition ceil (x : Z) : option Z :=
  t ← trunc x;
  Some (if dlt t x then dadd t d_1_0 else t).

(** Lines 567-569: [round]. *)
Definition round (x : Z) : option Z := floor (dadd x d_0_5).

(** Lines 600-607: the Newton-Raphson loop of [sqrt].  [fuel] bounds the
    number of iterations; [None] when it is used up. *)
Fixpoint sqrt_loop (fuel : nat) (x guess : Z) : option Z :=
  match fuel with
  | O => None
  | S fuel' =>
      let prev := guess in
      let guess := dmul (dadd guess (ddiv x guess)) d_0_5 in
      if dgt (fabs (dsub guess prev)) d_1e_15 then sqrt_loop fuel' x guess
      else Some guess
  end.

(** Lines 583, 596-607: [sqrt]. *)
Definition sqrt (fuel : nat) (x : Z) : option Z :=
  if dlt x d_0_0 then Some (ddiv d_0_0 d_0_0)
  else if deq x d_0_0 then Some x
  else sqrt_loop fuel x x.

(** Lines 628, 646-650: [fmod]. *)
Definition fmod (x y : Z) : option Z :=
  if deq y d_0_0 then Some (ddiv d_0_0 d_0_0)
  else
    let quotient := ddiv x y in
    integer_part ← trunc quotient;
    Some (dsub x (dmul integer_part y)).


(** Lines 144-145 and 155-160: the portable [memset]. *)
Definition memset (m : mem) (s c n : Z) : option (mem * Z) :=
  let p := s in
  '(m, _) ← fill_loop (Z.to_nat n) m p (byte_of_int c);
  Some (m, s).

(** Lines 179-180 and 191-196: the portable [strlen]. *)
Definition strlen (fuel : nat) (m : mem) (s : Z) : option Z :=
  let len := 0 in
  count_loop fuel m s len.

(** Lines 331-334 and 339-361: [ffs] without [__builtin_ffs], on a 32-bit
    [int].  [>>] on a negative [int] is the arithmetic shift. *)
Definition ffs (i : Z) : Z :=
  if i =? 0 then 0
  else
    let pos := 1 in
    let '(pos, i) :=
      if Z.land i 0xFFFF =? 0 then (pos + 16, Z.shiftr i 16) else (pos, i) in
    let '(pos, i) :=
      if Z.land i 0xFF =? 0 then (pos + 8, Z.shiftr i 8) else (pos, i) in
    let '(pos, i) :=
      if Z.land i 0xF =? 0 then (pos + 4, Z.shiftr i 4) else (pos, i) in
    let '(pos, i) :=
      if Z.land i 0x3 =? 0 then (pos + 2, Z.shiftr i 2) else (pos, i) in
    let pos := if Z.land i 0x1 =? 0 then pos + 1 else pos in
    pos.

(** Lines 365-368 and 373: [ffsl] without [__builtin_ffsl], for a 64-bit
    [long].  [a ?: b] is [a] when [a] is not zero and [b] otherwise. *)
Definition ffsl (i : Z) : Z :=
  if i =? 0 then 0
  else
    let a := ffs (int_of_long i) in
    if a =? 0 then 32 + ffs (int_of_long (Z.shiftr i 32)) else a.

(** Lines 377-380 and 385: [ffsll], the same expression. *)
Definition ffsll (i : Z) : Z :=
  if i =? 0 then 0
  else
    let a := ffs (int_of_long i) in
    if a =? 0 then 32 + ffs (int_of_long (Z.shiftr i 32)) else a.
End Portable.


(** Lines 163-176: [memcmp].  The result is the [int] difference of two
    [unsigned char] values, between -255 and 255. *)
Fixpoint memcmp_loop (n : nat) (m : mem) (p1 p2 : Z) : option Z :=
  match n with
  | O => Some 0
  | S n' =>
      b1 ← load m p1;
      b2 ← load m p2;
      if decide (u8 b1 ≠ u8 b2) then Some (u8 b1 - u8 b2)
      else memcmp_loop n' m (p1 + 1) (p2 + 1)
  end.

Definition memcmp (m : mem) (s1 s2 n : Z) : option Z :=
  memcmp_loop (Z.to_nat n) m s1 s2.


(** ** Specification vocabulary of the block transfer engine *)

(** The two ranges of length [n] share an address. *)
Definition ranges_overlap (d s n : Z) : Prop :=
  exists a, d <= a < d + n /\ s <= a < s + n.

(** [is_copy m m' d s n]: [m'] is [m] with [d[0..n)] replaced by the bytes
    that [s[0..n)] holds in [m], and nothing else changed. *)
Definition is_copy (m m' : mem) (d s n : Z) : Prop :=
  (forall i, 0 <= i < n -> m' !! (d + i) = m !! (s + i)) /\
  (forall a, ~ (d <= a < d + n) -> m' !! a = m !! a).


(** The value that [fmod] is said to have for a divisor that is not zero:
    [x - trunc(x/y) * y], computed with enough intermediate precision, that
    is, with the quotient and the product not rounded.  For finite operands
    [x = X * 2^e] and [y = Y * 2^e] with integers [X] and [Y], the
    truncated quotient is [Z.quot X Y] and the value is
    [(X - Z.quot X Y * Y) * 2^e]; it is a [double], and a zero takes the
    sign of [x].  The expression has no value for an infinity or a NaN. *)
Definition fmod_formula (x y : Z) : option Z :=
  match SF_of_bits x, SF_of_bits y with
  | S754_zero _, S754_finite _ _ _ => Some x
  | S754_finite sx mx ex, S754_finite sy my ey =>
      let e := Z.min ex ey in
      let X := (if sx then -1 else 1) * Z.shiftl (Z.pos mx) (ex - e) in
      let Y := (if sy then -1 else 1) * Z.shiftl (Z.pos my) (ey - e) in
      let q := Z.quot X Y in
      Some (bits_of_SF (binary_normalize 53 1024 (X - q * Y) e sx))
  | _, _ => None
  end.

(** The [double] [k / 4], for an integer [k] of small magnitude. *)
Definition quarter (k : Z) : Z := ddiv (double_of_ll k) (double_of_ll 4).

(** A memory of four allocated bytes, ["ABCD"] at addresses 0 to 3. *)
Definition abcd : mem :=
  <[3:=Byte.x44]> (<[2:=Byte.x43]> (<[1:=Byte.x42]> (<[0:=Byte.x41]> ∅))).

(** ** String functions (lines 199-295)

    The loops that stop at a terminator take a bound [fuel] on the number
    of iterations and give [None] when it is used up; those that count
    [n] down recurse on [n]. *)

(** [while (( *d++ = *src++ ));] of [strcpy] and [strcat]: the pointers
    have moved past the terminator when the loop ends. *)
Fixpoint copy_string (fuel : nat) (m : mem) (d src : Z)
  : option (mem * Z * Z) :=
  match fuel with
  | O => None
  | S fuel' =>
      b ← load m src;
      m' ← store m d b;
      if decide (b = NUL) then Some (m', d + 1, src + 1)
      else copy_string fuel' m' (d + 1) (src + 1)
  end.

(** [while (n && ( *d++ = *src++ )) n--;] of [strncpy] and [strncat], with
    [k] the value of [n]: the count is not decremented on the iteration
    that copies the terminator.  The count that is left is returned. *)
Fixpoint copy_bounded (k : nat) (m : mem) (d src : Z)
  : option (mem * Z * Z * nat) :=
  match k with
  | O => Some (m, d, src, O)
  | S k' =>
      b ← load m src;
      m' ← store m d b;
      if decide (b = NUL) then Some (m', d + 1, src + 1, k)
      else copy_bounded k' m' (d + 1) (src + 1)
  end.

(** [while ( *d ) d++;] of [strcat] and [strncat]. *)
Fixpoint skip_string (fuel : nat) (m : mem) (d : Z) : option Z :=
  match fuel with
  | O => None
  | S fuel' =>
      b ← load m d;
      if decide (b = NUL) then Some d else skip_string fuel' m (d + 1)
  end.

(** Lines 199-207: [strcpy]. *)
Definition strcpy (fuel : nat) (m : mem) (dest src : Z) : option (mem * Z) :=
  let d := dest in
  '(m, _, _) ← copy_string fuel m d src;
  Some (m, dest).

(** Lines 209-221: [strncpy]. *)
Definition strncpy (m : mem) (dest src n : Z) : option (mem * Z) :=
  let d := dest in
  '(m, d, _, n) ← copy_bounded (Z.to_nat n) m d src;
  '(m, _) ← fill_loop n m d NUL;
  Some (m, dest).

(** Lines 223-235: [strcat]. *)
Definition strcat (fuel : nat) (m : mem) (dest src : Z) : option (mem * Z) :=
  let d := dest in
  d ← skip_string fuel m d;
  '(m, _, _) ← copy_string fuel m d src;
  Some (m, dest).

(** Lines 237-253: [strncat]. *)
Definition strncat (fuel : nat) (m : mem) (dest src n : Z)
  : option (mem * Z) :=
  let d := dest in
  d ← skip_string fuel m d;
  '(m, d, _, n) ← copy_bounded (Z.to_nat n) m d src;
  if decide (n = O) then
    m ← store m d NUL;
    Some (m, dest)
  else Some (m, dest).

(** Lines 255-262: [strcmp].  [*s2] is read by the return expression when
    the loop has stopped at the terminator of [s1]. *)
Fixpoint strcmp (fuel : nat) (m : mem) (s1 s2 : Z) : option Z :=
  match fuel with
  | O => None
  | S fuel' =>
      b1 ← load m s1;
      b2 ← load m s2;
      if bool_decide (b1 ≠ NUL) && bool_decide (b1 = b2)
      then strcmp fuel' m (s1 + 1) (s2 + 1)
      else Some (u8 b1 - u8 b2)
  end.

(** Lines 264-272: [strncmp], with [k] the value of [n]. *)
Fixpoint strncmp_loop (k : nat) (m : mem) (s1 s2 : Z) : option Z :=
  match k with
  | O => Some 0
  | S k' =>
      b1 ← load m s1;
      b2 ← load m s2;
      if bool_decide (b1 ≠ NUL) && bool_decide (b1 = b2)
      then strncmp_loop k' m (s1 + 1) (s2 + 1)
      else Some (u8 b1 - u8 b2)
  end.

Definition strncmp (m : mem) (s1 s2 n : Z) : option Z :=
  strncmp_loop (Z.to_nat n) m s1 s2.

(** Lines 274-283: [strchr]. *)
Fixpoint strchr (fuel : nat) (m : mem) (s c : Z) : option Z :=
  match fuel with
  | O => None
  | S fuel' =>
      b ← load m s;
      if decide (b ≠ NUL) then
        if decide (b = byte_of_int c) then Some s
        else strchr fuel' m (s + 1) c
      else Some (if decide (byte_of_int c = NUL) then s else NULL)
  end.

(** Lines 285-295: [strrchr]. *)
Fixpoint strrchr_loop (fuel : nat) (m : mem) (s c last : Z) : option Z :=
  match fuel with
  | O => None
  | S fuel' =>
      b ← load m s;
      let last := if decide (b = byte_of_int c) then s else last in
      if decide (b ≠ NUL) then strrchr_loop fuel' m (s + 1) c last
      else Some last
  end.

Definition strrchr (fuel : nat) (m : mem) (s c : Z) : option Z :=
  let last := NULL in
  strrchr_loop fuel m s c last.

(** ** Character classification (lines 298-328)

    A test returns the [int] 1 or 0; the character constants are those of
    ASCII. *)

Definition isalpha (c : Z) : Z :=
  Z.b2z (((97 <=? c) && (c <=? 122)) || ((65 <=? c) && (c <=? 90))).

Definition isdigit (c : Z) : Z := Z.b2z ((48 <=? c) && (c <=? 57)).

Definition isalnum (c : Z) : Z :=
  Z.b2z (negb (isalpha c =? 0) || negb (isdigit c =? 0)).

Definition isspace (c : Z) : Z :=
  Z.b2z ((c =? 32) || (c =? 9) || (c =? 10) || (c =? 13) || (c =? 11)
         || (c =? 12)).

Definition isupper (c : Z) : Z := Z.b2z ((65 <=? c) && (c <=? 90)).

Definition islower (c : Z) : Z := Z.b2z ((97 <=? c) && (c <=? 122)).

Definition tolower (c : Z) : Z :=
  if negb (isupper c =? 0) then c + (97 - 65) else c.

Definition toupper (c : Z) : Z :=
  if negb (islower c =? 0) then c - (97 - 65) else c.

(** ** Sign and class of a [double] (lines 428-455) *)

(** Lines 428-433: [copysign]. *)
Definition copysign (x y : Z) : Z :=
  Z.lor (Z.land x 0x7FFFFFFFFFFFFFFF) (Z.land y 0x8000000000000000).

(** Lines 442-445: [signbit]. *)
Definition signbit (x : Z) : Z := Z.land (Z.shiftr x 63) 1.

(** Lines 452-455: [isinf]. *)
Definition isinf (x : Z) : bool :=
  (Z.land (Z.shiftr x 52) 0x7FF =? 0x7FF)
  && (Z.land x 0xFFFFFFFFFFFFF =? 0).

(** ** Specification vocabulary of the string functions *)

(** [cstring m s l]: the memory holds at [s] the bytes of [l], none of
    them zero, and then the terminator. *)
Fixpoint cstring (m : mem) (s : Z) (l : list Byte.byte) : Prop :=
  match l with
  | [] => m !! s = Some NUL
  | b :: l' => m !! s = Some b /\ b <> NUL /\ cstring m (s + 1) l'
  end.

(** The length of a list as a [size_t] or pointer offset. *)
Definition len (l : list Byte.byte) : Z := Z.of_nat (length l).

(** [m'] differs from [m] at most on [[a, a+n)]. *)
Definition unchanged_outside (m m' : mem) (a n : Z) : Prop :=
  forall x, ~ (a <= x < a + n) -> m' !! x = m !! x.

(** The first (last) index at which [c] occurs in [l]. *)
Fixpoint first_index (c : Byte.byte) (l : list Byte.byte) : option nat :=
  match l with
  | [] => None
  | b :: l' => if decide (b = c) then Some O else S <$> first_index c l'
  end.

Fixpoint last_index (c : Byte.byte) (l : list Byte.byte) : option nat :=
  match l with
  | [] => None
  | b :: l' =>
      match last_index c l' with
      | Some i => Some (S i)
      | None => if decide (b = c) then Some O else None
      end
  end.

(** The comparison of two strings that [strcmp] computes: the difference
    of the first pair of bytes that differ, the terminator included. *)
Fixpoint compare_strings (l1 l2 : list Byte.byte) : Z :=
  match l1, l2 with
  | [], [] => 0
  | [], b2 :: _ => - u8 b2
  | b1 :: _, [] => u8 b1
  | b1 :: l1', b2 :: l2' =>
      if decide (b1 = b2) then compare_strings l1' l2' else u8 b1 - u8 b2
  end.

(** A memory of sixteen allocated bytes: ["hi"] at address 0, ["abc"] at
    address 3, ["hi"] again at address 7, and six bytes ['.'] from
    address 10. *)
Definition demo : mem :=
  list_to_map
    (zip (Z.of_nat <$> seq 0 16)
       [Byte.x68; Byte.x69; Byte.x00;
        Byte.x61; Byte.x62; Byte.x63; Byte.x00;
        Byte.x68; Byte.x69; Byte.x00;
        Byte.x2e; Byte.x2e; Byte.x2e; Byte.x2e; Byte.x2e; Byte.x2e]).

(** Bit [p] is the lowest bit of [i] that is set. *)
Definition lowest_set_bit (i p : Z) : Prop :=
  Z.testbit i p = true /\ forall j, 0 <= j < p -> Z.testbit i j = false.

(** ** Absolute values of integers (lines 390-400)

    [-x] in a signed type of [w] bits; the negation overflows, and is
    undefined, when the result is no value of the type. *)
Definition neg_signed (w : Z) (x : Z) : option Z :=
  if (- 2 ^ (w - 1) <=? - x) && (- x <? 2 ^ (w - 1)) then Some (- x)
  else None.

(** Lines 390-392: [abs], on a 32-bit [int]. *)
Definition abs (x : Z) : option Z :=
  if x <? 0 then neg_signed 32 x else Some x.

(** Lines 394-396: [labs], on a 64-bit [long]. *)
Definition labs (x : Z) : option Z :=
  if x <? 0 then neg_signed 64 x else Some x.

(** Lines 398-400: [llabs], on a 64-bit [long long]. *)
Definition llabs (x : Z) : option Z :=
  if x <? 0 then neg_signed 64 x else Some x.

(** ** Proof steps used more than once *)

(** Equal results of a loop: the components are equal as integers. *)
Ltac tuple_eq :=
  repeat match goal with
         | |- Some _ = Some _ => f_equal
         | |- (_, _) = (_, _) => f_equal
         end;
  try reflexivity; try lia.

(** Case analysis by a lemma [lem c] of the shape
    [(P /\ f c = v) \/ (~ P /\ f c = v')]: the value of [f c] is put in
    place and the case is closed when its arithmetic is contradictory. *)
Ltac case_on lem c :=
  let H := fresh "H" in
  let E := fresh "E" in
  destruct (lem c) as [[H E]|[H E]]; rewrite ?E in *; clear E; try lia.

(** ** IEEE-754 binary32 (lines 474-484)

    A [float] is its 32-bit pattern: bit 31 is the sign, bits 30..23 the
    biased exponent, bits 22..0 the mantissa. *)
Definition SF_of_bits32 (x : Z) : spec_float :=
  let s := Z.testbit x 31 in
  let e := Z.land (Z.shiftr x 23) 0xFF in
  let f := Z.land x 0x7FFFFF in
  if e =? 0xFF then
    if f =? 0 then S754_infinity s else S754_nan
  else if e =? 0 then
    if f =? 0 then S754_zero s else S754_finite s (Z.to_pos f) (-149)
  else S754_finite s (Z.to_pos (f + 2 ^ 23)) (e - 150).

(** [x != y], [x < y], [x <= y] and [x > y] on [float]. *)
Definition fne (x y : Z) : bool :=
  negb (SFeqb (SF_of_bits32 x) (SF_of_bits32 y)).
Definition flt (x y : Z) : bool := SFltb (SF_of_bits32 x) (SF_of_bits32 y).
Definition fle (x y : Z) : bool := SFleb (SF_of_bits32 x) (SF_of_bits32 y).
Definition fgt (x y : Z) : bool := flt y x.

(** Lines 474-478: [fminf]. *)
Definition fminf (x y : Z) : Z :=
  if fne x x then y
  else if fne y y then x
  else if flt x y then x else y.

(** Lines 480-484: [fmaxf]. *)
Definition fmaxf (x y : Z) : Z :=
  if fne x x then y
  else if fne y y then x
  else if fgt x y then x else y.
(** ** Properties of the block transfer engine *)

Lemma allocated_weaken (m : mem) a n b k :
  allocated m a n -> a <= b -> b + k <= a + n -> allocated m b k.
Proof.
  intros Ha Hab Hk i Hi.
  replace (b + i) with (a + (b - a + i)) by lia. apply Ha. lia.
Qed.

Lemma load_bytes_spec (k : nat) (m : mem) (a : Z) :
  allocated m a (Z.of_nat k) ->
  exists l, load_bytes k m a = Some l /\ length l = k /\
    forall i : nat, (i < k)%nat -> l !! i = m !! (a + Z.of_nat i).
Proof.
  revert a. induction k as [|k IH]; intros a Ha.
  - exists []. split; [reflexivity|]. split; [reflexivity|]. intros i Hi. lia.
  - destruct (Ha 0) as [b Hb]; [lia|]. rewrite Z.add_0_r in Hb.
    destruct (IH (a + 1)) as (l & Hl & Hlen & Hlk).
    { apply (allocated_weaken m a (Z.of_nat (S k))); [exact Ha|lia|lia]. }
    exists (b :: l). simpl. unfold load. rewrite Hb. simpl. rewrite Hl. simpl.
    split; [reflexivity|]. split; [now rewrite Hlen|].
    intros [|i] Hi; simpl.
    + now rewrite Z.add_0_r.
    + rewrite Hlk by lia. f_equal. lia.
Qed.

Lemma store_bytes_spec (l : list Byte.byte) (m : mem) (a : Z) :
  allocated m a (Z.of_nat (length l)) ->
  exists m', store_bytes m a l = Some m' /\
    (forall i : nat, (i < length l)%nat -> m' !! (a + Z.of_nat i) = l !! i) /\
    (forall x, ~ (a <= x < a + Z.of_nat (length l)) -> m' !! x = m !! x).
Proof.
  revert m a. induction l as [|b l IH]; intros m a Ha.
  - exists m. split; [reflexivity|]. split; [simpl; intros; lia|reflexivity].
  - assert (Hs : store m a b = Some (<[a:=b]> m)).
    { unfold store. destruct (decide (is_Some (m !! a))) as [|Hn]; [reflexivity|].
      exfalso. apply Hn. specialize (Ha 0). rewrite Z.add_0_r in Ha.
      apply Ha. simpl length. lia. }
    destruct (IH (<[a:=b]> m) (a + 1)) as (m' & Hm' & Hin & Hout).
    { intros i Hi. rewrite lookup_insert_ne by lia.
      replace (a + 1 + i) with (a + (1 + i)) by lia. apply Ha.
      simpl length. lia. }
    exists m'. simpl. rewrite Hs. simpl. split; [exact Hm'|]. split.
    + intros [|i] Hi; simpl.
      * rewrite Z.add_0_r, Hout by lia. apply lookup_insert_eq.
      * replace (a + Z.of_nat (S i)) with (a + 1 + Z.of_nat i) by lia.
        apply Hin. simpl in Hi. lia.
    + intros x Hx. simpl length in Hx. rewrite Hout by lia.
      apply lookup_insert_ne. lia.
Qed.

(** One datum moved: the bytes are read before any is written, so the move
    is a copy whatever the two addresses are. *)
Lemma move_datum_spec (w : nat) (m : mem) (d s : Z) :
  allocated m d (Z.of_nat w) -> allocated m s (Z.of_nat w) ->
  exists m', (load_bytes w m s ≫= store_bytes m d) = Some m' /\
             is_copy m m' d s (Z.of_nat w).
Proof.
  intros Hd Hs.
  destruct (load_bytes_spec w m s Hs) as (l & Hl & Hlen & Hlk).
  destruct (store_bytes_spec l m d) as (m' & Hm' & Hin & Hout).
  { now rewrite Hlen. }
  exists m'. rewrite Hl. simpl. split; [exact Hm'|]. split.
  - intros i Hi. replace i with (Z.of_nat (Z.to_nat i)) by lia.
    rewrite Hin by lia. apply Hlk. lia.
  - intros a Ha. apply Hout. lia.
Qed.

Lemma is_copy_allocated (m m' : mem) d s n a k :
  is_copy m m' d s n -> allocated m s n -> allocated m a k -> allocated m' a k.
Proof.
  intros [Hin Hout] Hs Ha i Hi.
  destruct (decide (d <= a + i < d + n)) as [Hr|Hr].
  - replace (a + i) with (d + (a + i - d)) by lia.
    rewrite Hin by lia. apply Hs. lia.
  - rewrite Hout by exact Hr. now apply Ha.
Qed.

Lemma is_copy_unique (m m1 m2 : mem) d s n :
  is_copy m m1 d s n -> is_copy m m2 d s n -> m1 = m2.
Proof.
  intros [Hin1 Hout1] [Hin2 Hout2]. apply map_eq. intros a.
  destruct (decide (d <= a < d + n)) as [Hr|Hr].
  - replace a with (d + (a - d)) by lia.
    rewrite Hin1, Hin2 by lia. reflexivity.
  - now rewrite Hout1, Hout2.
Qed.

Lemma is_copy_same (m : mem) d n : is_copy m m d d n.
Proof. split; reflexivity. Qed.

Lemma is_copy_empty (m : mem) d s n : n <= 0 -> is_copy m m d s n.
Proof. intros Hn. split; [intros; lia|reflexivity]. Qed.

(** Two transfers in ascending order make one, as long as the first does
    not write what the second still has to read. *)
Lemma is_copy_forward (m m1 m2 : mem) d s a b :
  0 <= a -> 0 <= b ->
  d <= s \/ s + a + b <= d ->
  is_copy m m1 d s a -> is_copy m1 m2 (d + a) (s + a) b ->
  is_copy m m2 d s (a + b).
Proof.
  intros Ha Hb Hsafe [Hin1 Hout1] [Hin2 Hout2]. split.
  - intros i Hi. destruct (decide (i < a)) as [Hlt|Hge].
    + rewrite Hout2 by lia. apply Hin1. lia.
    + replace (d + i) with (d + a + (i - a)) by lia.
      rewrite Hin2 by lia. rewrite Hout1 by lia. f_equal. lia.
  - intros x Hx. rewrite Hout2 by lia. apply Hout1. lia.
Qed.

(** The same in descending order. *)
Lemma is_copy_backward (m m1 m2 : mem) d s a b :
  0 <= a -> 0 <= b ->
  s <= d \/ d + a + b <= s ->
  is_copy m m1 (d + a) (s + a) b -> is_copy m1 m2 d s a ->
  is_copy m m2 d s (a + b).
Proof.
  intros Ha Hb Hsafe [Hin1 Hout1] [Hin2 Hout2]. split.
  - intros i Hi. destruct (decide (i < a)) as [Hlt|Hge].
    + rewrite Hin2 by lia. apply Hout1. lia.
    + rewrite Hout2 by lia. replace (d + i) with (d + a + (i - a)) by lia.
      rewrite Hin1 by lia. f_equal. lia.
  - intros x Hx. rewrite Hout2 by lia. apply Hout1. lia.
Qed.

Lemma copy_loop_forward (w k : nat) (m : mem) (d s : Z) :
  let n := Z.of_nat w * Z.of_nat k in
  allocated m d n -> allocated m s n ->
  d <= s \/ s + n <= d ->
  exists m', copy_loop w (Z.of_nat w) k m d s = Some (m', d + n, s + n) /\
             is_copy m m' d s n.
Proof.
  revert m d s. induction k as [|k IH]; intros m d s n Hd Hs Hsafe.
  - exists m. subst n. rewrite Z.mul_0_r, !Z.add_0_r.
    split; [reflexivity|]. now apply is_copy_empty.
  - assert (Hn : n = Z.of_nat w + Z.of_nat w * Z.of_nat k) by (subst n; lia).
    destruct (move_datum_spec w m d s) as (m1 & Hm1 & Hc1).
    { apply (allocated_weaken m d n); [exact Hd|lia|lia]. }
    { apply (allocated_weaken m s n); [exact Hs|lia|lia]. }
    assert (Hs1 : allocated m s (Z.of_nat w))
      by (apply (allocated_weaken m s n); [exact Hs|lia|lia]).
    destruct (IH m1 (d + Z.of_nat w) (s + Z.of_nat w)) as (m2 & Hm2 & Hc2).
    { apply (is_copy_allocated m m1 d s (Z.of_nat w)); [exact Hc1|exact Hs1|].
      apply (allocated_weaken m d n); [exact Hd|lia|lia]. }
    { apply (is_copy_allocated m m1 d s (Z.of_nat w)); [exact Hc1|exact Hs1|].
      apply (allocated_weaken m s n); [exact Hs|lia|lia]. }
    { lia. }
    exists m2. split.
    + cbn [copy_loop]. destruct (load_bytes w m s) as [l|]; [|discriminate Hm1].
      simpl in Hm1. cbn [mbind option_bind]. rewrite Hm1.
      cbn [mbind option_bind]. rewrite Hm2, Hn, !Z.add_assoc. reflexivity.
    + rewrite Hn. apply (is_copy_forward m m1 m2); [lia|lia|lia|exact Hc1|exact Hc2].
Qed.

Lemma copy_loop_backward (k : nat) (m : mem) (d s : Z) :
  let n := Z.of_nat k in
  allocated m d n -> allocated m s n ->
  s <= d \/ d + n <= s ->
  exists m', copy_loop 1 (-1) k m (d + (n - 1)) (s + (n - 1))
               = Some (m', d - 1, s - 1) /\
             is_copy m m' d s n.
Proof.
  revert m. induction k as [|k IH]; intros m n Hd Hs Hsafe.
  - exists m. subst n. cbn [copy_loop Z.of_nat].
    replace (0 - 1) with (-1) by reflexivity. rewrite !Z.add_opp_r.
    split; [reflexivity|].
    now apply is_copy_empty.
  - assert (Hn : n = Z.of_nat k + 1) by (subst n; lia).
    destruct (move_datum_spec 1 m (d + Z.of_nat k) (s + Z.of_nat k))
      as (m1 & Hm1 & Hc1).
    { apply (allocated_weaken m d n); [exact Hd|lia|lia]. }
    { apply (allocated_weaken m s n); [exact Hs|lia|lia]. }
    assert (Hs1 : allocated m (s + Z.of_nat k) (Z.of_nat 1))
      by (apply (allocated_weaken m s n); [exact Hs|lia|lia]).
    destruct (IH m1) as (m2 & Hm2 & Hc2).
    { apply (is_copy_allocated m m1 _ _ _ _ _ Hc1 Hs1).
      apply (allocated_weaken m d n); [exact Hd|lia|lia]. }
    { apply (is_copy_allocated m m1 _ _ _ _ _ Hc1 Hs1).
      apply (allocated_weaken m s n); [exact Hs|lia|lia]. }
    { lia. }
    exists m2. split.
    + cbn [copy_loop]. replace (d + (n - 1)) with (d + Z.of_nat k) by lia.
      replace (s + (n - 1)) with (s + Z.of_nat k) by lia.
      destruct (load_bytes 1 m (s + Z.of_nat k)) as [l|]; [|discriminate Hm1].
      simpl in Hm1 |- *. rewrite Hm1. simpl.
      replace (d + Z.of_nat k + -1) with (d + (Z.of_nat k - 1)) by lia.
      replace (s + Z.of_nat k + -1) with (s + (Z.of_nat k - 1)) by lia.
      exact Hm2.
    + rewrite Hn. apply (is_copy_backward m m1 m2); [lia|lia|lia|exact Hc1|exact Hc2].
Qed.

Lemma snapshot_write_spec (m : mem) (d s n : Z) :
  allocated m d n -> allocated m s n ->
  exists m', snapshot_write m d s n = Some (m', d) /\ is_copy m m' d s n.
Proof.
  intros Hd Hs. unfold snapshot_write.
  destruct (move_datum_spec (Z.to_nat n) m d s) as (m' & Hm' & Hc).
  { intros i Hi. apply Hd. lia. }
  { intros i Hi. apply Hs. lia. }
  exists m'. split.
  - destruct (load_bytes (Z.to_nat n) m s) as [l|]; [|discriminate Hm'].
    simpl in Hm' |- *. now rewrite Hm'.
  - destruct Hc as [Hin Hout]. split.
    + intros i Hi. apply Hin. lia.
    + intros a Ha. apply Hout. lia.
Qed.

(** Whole words first, then the remaining bytes: the shape of every forward
    transfer of the header. *)
Lemma words_then_bytes (w k1 k2 : nat) (m : mem) (d s n : Z) :
  n = Z.of_nat w * Z.of_nat k1 + Z.of_nat k2 ->
  allocated m d n -> allocated m s n ->
  d <= s \/ s + n <= d ->
  exists m1 d1 s1 m2 d2 s2,
    copy_loop w (Z.of_nat w) k1 m d s = Some (m1, d1, s1) /\
    copy_loop 1 1 k2 m1 d1 s1 = Some (m2, d2, s2) /\
    is_copy m m2 d s n.
Proof.
  intros Hn Hd Hs Hsafe.
  set (n1 := Z.of_nat w * Z.of_nat k1) in *.
  assert (Hs1 : allocated m s n1)
    by (apply (allocated_weaken m s n); [exact Hs|lia|lia]).
  destruct (copy_loop_forward w k1 m d s) as (m1 & Hm1 & Hc1).
  { apply (allocated_weaken m d n); [exact Hd|lia|lia]. }
  { exact Hs1. }
  { fold n1. lia. }
  fold n1 in Hm1, Hc1.
  destruct (copy_loop_forward 1 k2 m1 (d + n1) (s + n1)) as (m2 & Hm2 & Hc2).
  { apply (is_copy_allocated m m1 _ _ _ _ _ Hc1 Hs1).
    apply (allocated_weaken m d n); [exact Hd|lia|lia]. }
  { apply (is_copy_allocated m m1 _ _ _ _ _ Hc1 Hs1).
    apply (allocated_weaken m s n); [exact Hs|lia|lia]. }
  { lia. }
  rewrite Z.mul_1_l in Hm2, Hc2.
  exists m1, (d + n1), (s + n1), m2, (d + n1 + Z.of_nat k2), (s + n1 + Z.of_nat k2).
  split; [exact Hm1|]. split; [exact Hm2|].
  rewrite Hn. apply (is_copy_forward m m1 m2); [lia|lia|lia|exact Hc1|exact Hc2].
Qed.

Lemma land_pow2_pred (n k : Z) : 0 <= k -> Z.land n (2 ^ k - 1) = n mod 2 ^ k.
Proof.
  intros Hk. rewrite <- Z.land_ones by exact Hk.
  now rewrite Z.ones_equiv, Z.sub_1_r.
Qed.

Lemma X86_64_movs_forward_spec (m : mem) (d s n : Z) :
  0 <= n -> allocated m d n -> allocated m s n ->
  d <= s \/ s + n <= d ->
  exists m', X86_64.movs_forward m d s n = Some m' /\ is_copy m m' d s n.
Proof.
  intros Hn Hd Hs Hsafe. unfold X86_64.movs_forward, rep_movsq, rep_movsb.
  destruct ((8 <=? n) && (Z.land d 7 =? 0) && (Z.land s 7 =? 0)).
  - destruct (words_then_bytes 8 (Z.to_nat (n / 8)) (Z.to_nat (Z.land n 7))
                m d s n) as (m1 & d1 & s1 & m2 & d2 & s2 & H1 & H2 & Hc);
      [|exact Hd|exact Hs|exact Hsafe|].
    + pose proof (land_pow2_pred n 3) as Hl. change (2 ^ 3 - 1) with 7 in Hl.
      change (2 ^ 3) with 8 in Hl. rewrite Hl by lia.
      pose proof (Z.div_mod n 8). pose proof (Z.mod_pos_bound n 8).
      pose proof (Z.div_pos n 8). change (Z.of_nat 8) with 8. lia.
    + change (Z.of_nat 8) with 8 in H1. rewrite H1.
      cbn [mbind option_bind]. rewrite H2. cbn [mbind option_bind].
      now exists m2.
  - destruct (words_then_bytes 8 0 (Z.to_nat n) m d s n)
      as (m1 & d1 & s1 & m2 & d2 & s2 & H1 & H2 & Hc);
      [lia|exact Hd|exact Hs|exact Hsafe|].
    cbn [copy_loop] in H1. injection H1 as <- <- <-.
    cbn [mbind option_bind]. rewrite H2. cbn [mbind option_bind].
    now exists m2.
Qed.

Lemma Portable_memcpy_spec (k : Z) (m : mem) (d s n : Z) :
  0 <= k -> 0 <= n -> allocated m d n -> allocated m s n ->
  d <= s \/ s + n <= d ->
  exists m', Portable.memcpy (2 ^ k) m d s n = Some (m', d) /\
             is_copy m m' d s n.
Proof.
  intros Hk Hn Hd Hs Hsafe. unfold Portable.memcpy.
  assert (Hw : 0 < 2 ^ k) by (apply Z.pow_pos_nonneg; lia).
  destruct ((2 ^ k <=? n) && (Z.land d (2 ^ k - 1) =? 0)
            && (Z.land s (2 ^ k - 1) =? 0)).
  - destruct (words_then_bytes (Z.to_nat (2 ^ k)) (Z.to_nat (n / 2 ^ k))
                (Z.to_nat (Z.land n (2 ^ k - 1))) m d s n)
      as (m1 & d1 & s1 & m2 & d2 & s2 & H1 & H2 & Hc);
      [|exact Hd|exact Hs|exact Hsafe|].
    + rewrite (land_pow2_pred n k) by lia.
      pose proof (Z.div_mod n (2 ^ k)). pose proof (Z.mod_pos_bound n (2 ^ k)).
      pose proof (Z.div_pos n (2 ^ k)). rewrite !Z2Nat.id by lia. lia.
    + rewrite Z2Nat.id in H1 by lia. rewrite H1.
      cbn [mbind option_bind]. rewrite H2. cbn [mbind option_bind].
      now exists m2.
  - destruct (words_then_bytes 1 0 (Z.to_nat n) m d s n)
      as (m1 & d1 & s1 & m2 & d2 & s2 & H1 & H2 & Hc);
      [lia|exact Hd|exact Hs|exact Hsafe|].
    cbn [copy_loop] in H1. injection H1 as <- <- <-.
    cbn [mbind option_bind]. rewrite H2. cbn [mbind option_bind].
    now exists m2.
Qed.

Lemma X86_64_memcpy_spec (m : mem) (d s n : Z) :
  0 <= n -> allocated m d n -> allocated m s n ->
  d <= s \/ s + n <= d ->
  exists m', X86_64.memcpy m d s n = Some (m', d) /\ is_copy m m' d s n.
Proof.
  intros Hn Hd Hs Hsafe. unfold X86_64.memcpy.
  destruct (X86_64_movs_forward_spec m d s n Hn Hd Hs Hsafe) as (m' & -> & Hc).
  now exists m'.
Qed.

Lemma bytes_forward_spec (m : mem) (d s n : Z) :
  0 <= n -> allocated m d n -> allocated m s n ->
  d <= s \/ s + n <= d ->
  exists m' d' s', copy_loop 1 1 (Z.to_nat n) m d s = Some (m', d', s') /\
                   is_copy m m' d s n.
Proof.
  intros Hn Hd Hs Hsafe.
  destruct (words_then_bytes 1 0 (Z.to_nat n) m d s n)
    as (m1 & d1 & s1 & m2 & d2 & s2 & H1 & H2 & Hc);
    [lia|exact Hd|exact Hs|exact Hsafe|].
  cbn [copy_loop] in H1. injection H1 as <- <- <-.
  now exists m2, d2, s2.
Qed.

Lemma bytes_backward_spec (m : mem) (d s n : Z) :
  0 <= n -> allocated m d n -> allocated m s n ->
  s <= d \/ d + n <= s ->
  exists m' d' s',
    copy_loop 1 (-1) (Z.to_nat n) m (d + (n - 1)) (s + (n - 1))
      = Some (m', d', s') /\
    is_copy m m' d s n.
Proof.
  intros Hn Hd Hs Hsafe.
  destruct (copy_loop_backward (Z.to_nat n) m d s) as (m' & Hm' & Hc);
    rewrite ?Z2Nat.id by lia; try assumption.
  rewrite Z2Nat.id in Hm', Hc by lia.
  now exists m', (d - 1), (s - 1).
Qed.

(** [memmove] is a copy of [src[0..n)] as it was before the call, on both
    builds and for every position of the two ranges. *)
Lemma X86_64_memmove_spec (m : mem) (d s n : Z) :
  0 <= n -> allocated m d n -> allocated m s n ->
  exists m', X86_64.memmove m d s n = Some (m', d) /\ is_copy m m' d s n.
Proof.
  intros Hn Hd Hs. unfold X86_64.memmove, overlap, rep_movsb.
  destruct (Z.eqb_spec d s) as [->|Hds]; cbn [orb].
  { exists m. split; [reflexivity|apply is_copy_same]. }
  destruct (Z.eqb_spec n 0) as [->|Hn0].
  { exists m. split; [reflexivity|now apply is_copy_empty]. }
  destruct (Z.ltb_spec s (d + n)), (Z.ltb_spec d (s + n)); cbn [andb];
    try destruct (Z.ltb_spec d s).
  2: { destruct (bytes_backward_spec m d s n) as (m' & d' & s' & -> & Hc);
         [lia|exact Hd|exact Hs|lia|]. now exists m'. }
  all: destruct (X86_64_movs_forward_spec m d s n) as (m' & -> & Hc);
    [lia|exact Hd|exact Hs|lia|]; now exists m'.
Qed.

Lemma Portable_memmove_spec (m : mem) (d s n : Z) :
  0 <= n -> allocated m d n -> allocated m s n ->
  exists m', Portable.memmove m d s n = Some (m', d) /\ is_copy m m' d s n.
Proof.
  intros Hn Hd Hs. unfold Portable.memmove, overlap.
  destruct (Z.eqb_spec d s) as [->|Hds]; cbn [orb].
  { exists m. split; [reflexivity|apply is_copy_same]. }
  destruct (Z.eqb_spec n 0) as [->|Hn0].
  { exists m. split; [reflexivity|now apply is_copy_empty]. }
  destruct (Z.ltb_spec s (d + n)), (Z.ltb_spec d (s + n)); cbn [andb];
    try destruct (Z.ltb_spec d s).
  2: { destruct (bytes_backward_spec m d s n) as (m' & d' & s' & -> & Hc);
         [lia|exact Hd|exact Hs|lia|]. now exists m'. }
  all: destruct (bytes_forward_spec m d s n) as (m' & d' & s' & -> & Hc);
    [lia|exact Hd|exact Hs|lia|]; now exists m'.
Qed.

Lemma load_bytes_ext (k : nat) (m m' : mem) (a b : Z) :
  (forall i, 0 <= i < Z.of_nat k -> m' !! (a + i) = m !! (b + i)) ->
  load_bytes k m' a = load_bytes k m b.
Proof.
  revert a b. induction k as [|k IH]; intros a b H; [reflexivity|].
  cbn [load_bytes]. unfold load.
  pose proof (H 0) as H0. rewrite !Z.add_0_r in H0. rewrite H0 by lia.
  rewrite (IH (a + 1) (b + 1)); [reflexivity|].
  intros i Hi. rewrite <- !Z.add_assoc. apply H. lia.
Qed.

Lemma ranges_overlap_test (d s n : Z) :
  ranges_overlap d s n <-> overlap d s n = true /\ 0 < n.
Proof.
  unfold ranges_overlap, overlap. rewrite andb_true_iff, !Z.ltb_lt. split.
  - intros (a & Ha & Hb). lia.
  - intros [[H1 H2] Hn]. exists (Z.max d s). lia.
Qed.

(** C1: for overlapping ranges [dest] and [src] of length [n], [memmove]
    (on the x86-64 build and on the portable build) returns [dest] and
    leaves the memory that the reference transfer leaves, which snapshots
    [src[0..n)] left to right into a scratch buffer and then writes the
    buffer to [dest]; reading [dest[0..n)] afterwards yields the bytes that
    [src[0..n)] held before the call. *)
Theorem memmove_overlapping_is_snapshot (m : mem) (dest src n : Z) :
  is_size_t n -> allocated m dest n -> allocated m src n ->
  ranges_overlap dest src n ->
  exists m',
    X86_64.memmove m dest src n = Some (m', dest) /\
    Portable.memmove m dest src n = Some (m', dest) /\
    snapshot_write m dest src n = Some (m', dest) /\
    (forall i, 0 <= i < n -> m' !! (dest + i) = m !! (src + i)) /\
    load_bytes (Z.to_nat n) m' dest = load_bytes (Z.to_nat n) m src.
Proof.
  intros [Hn _] Hd Hs _.
  destruct (snapshot_write_spec m dest src n Hd Hs) as (m' & Hr & Hc).
  destruct (X86_64_memmove_spec m dest src n Hn Hd Hs) as (m1 & H1 & Hc1).
  destruct (Portable_memmove_spec m dest src n Hn Hd Hs) as (m2 & H2 & Hc2).
  rewrite (is_copy_unique m m1 m' _ _ _ Hc1 Hc) in H1.
  rewrite (is_copy_unique m m2 m' _ _ _ Hc2 Hc) in H2.
  exists m'. repeat split; try assumption.
  - apply Hc.
  - apply load_bytes_ext. intros i Hi. apply Hc. lia.
Qed.

(** C2: for non-overlapping ranges [dest] and [src] of length [n],
    [memmove] and [memcpy] leave the same memory and both return [dest], on
    the x86-64 build and on the portable build (whatever power of two
    [sizeof(size_t)] is there). *)
Theorem memmove_disjoint_is_memcpy (m : mem) (dest src n : Z) :
  is_size_t n -> allocated m dest n -> allocated m src n ->
  ~ ranges_overlap dest src n ->
  exists m',
    X86_64.memmove m dest src n = Some (m', dest) /\
    X86_64.memcpy m dest src n = Some (m', dest) /\
    Portable.memmove m dest src n = Some (m', dest) /\
    (forall k, 0 <= k -> Portable.memcpy (2 ^ k) m dest src n = Some (m', dest)) /\
    (forall i, 0 <= i < n -> m' !! (dest + i) = m !! (src + i)).
Proof.
  intros [Hn _] Hd Hs Hno.
  assert (Hsafe : dest <= src \/ src + n <= dest).
  { destruct (Z.le_gt_cases dest src); [now left|right].
    destruct (Z.le_gt_cases (src + n) dest) as [|Hlt]; [assumption|].
    exfalso. apply Hno. apply ranges_overlap_test. unfold overlap.
    rewrite andb_true_iff, !Z.ltb_lt. lia. }
  destruct (X86_64_memmove_spec m dest src n Hn Hd Hs) as (m' & H1 & Hc).
  destruct (X86_64_memcpy_spec m dest src n Hn Hd Hs Hsafe) as (m2 & H2 & Hc2).
  destruct (Portable_memmove_spec m dest src n Hn Hd Hs) as (m3 & H3 & Hc3).
  rewrite (is_copy_unique m m2 m' _ _ _ Hc2 Hc) in H2.
  rewrite (is_copy_unique m m3 m' _ _ _ Hc3 Hc) in H3.
  exists m'. repeat split; try assumption.
  - intros k Hk.
    destruct (Portable_memcpy_spec k m dest src n Hk Hn Hd Hs Hsafe)
      as (m4 & H4 & Hc4).
    now rewrite (is_copy_unique m m4 m' _ _ _ Hc4 Hc) in H4.
  - apply Hc.
Qed.

(** *** [memcmp] *)

Lemma u8_inj (x y : Byte.byte) : u8 x = u8 y -> x = y.
Proof.
  unfold u8. intros H. apply N2Z.inj in H.
  pose proof (Byte.of_to_N x) as Hx. rewrite H, Byte.of_to_N in Hx.
  congruence.
Qed.

Lemma memcmp_loop_equal (k : nat) (m : mem) (a b : Z) :
  allocated m a (Z.of_nat k) ->
  (forall i, 0 <= i < Z.of_nat k -> m !! (a + i) = m !! (b + i)) ->
  memcmp_loop k m a b = Some 0.
Proof.
  revert a b. induction k as [|k IH]; intros a b Ha Heq; [reflexivity|].
  cbn [memcmp_loop]. unfold load.
  pose proof (Heq 0) as H0. rewrite !Z.add_0_r in H0. rewrite <- H0 by lia.
  destruct (Ha 0) as [x Hx]; [lia|]. rewrite Z.add_0_r in Hx. rewrite Hx.
  cbn [mbind option_bind]. destruct (decide (u8 x ≠ u8 x)) as [Hne|_]; [congruence|].
  apply IH.
  - apply (allocated_weaken m a (Z.of_nat (S k))); [exact Ha|lia|lia].
  - intros i Hi. rewrite <- !Z.add_assoc. apply Heq. lia.
Qed.

Lemma memcmp_loop_first_diff (k : nat) (m : mem) (a b j : Z) x y :
  0 <= j < Z.of_nat k ->
  allocated m a j ->
  (forall i, 0 <= i < j -> m !! (a + i) = m !! (b + i)) ->
  m !! (a + j) = Some x -> m !! (b + j) = Some y -> x <> y ->
  memcmp_loop k m a b = Some (u8 x - u8 y).
Proof.
  revert a b j. induction k as [|k IH]; intros a b j Hj Ha Heq Hx Hy Hne; [lia|].
  cbn [memcmp_loop]. unfold load.
  destruct (decide (j = 0)) as [->|Hj0].
  - rewrite Z.add_0_r in Hx, Hy. rewrite Hx, Hy. cbn [mbind option_bind].
    destruct (decide (u8 x ≠ u8 y)) as [_|He]; [reflexivity|].
    exfalso. apply Hne, u8_inj. lia.
  - pose proof (Heq 0) as H0. rewrite !Z.add_0_r in H0. rewrite <- H0 by lia.
    destruct (Ha 0) as [z Hz]; [lia|]. rewrite Z.add_0_r in Hz. rewrite Hz.
    cbn [mbind option_bind].
    destruct (decide (u8 z ≠ u8 z)) as [?|_]; [congruence|].
    apply (IH (a + 1) (b + 1) (j - 1)); [lia| | | | |exact Hne].
    + apply (allocated_weaken m a j); [exact Ha|lia|lia].
    + intros i Hi. rewrite <- !Z.add_assoc. apply Heq. lia.
    + now replace (a + 1 + (j - 1)) with (a + j) by lia.
    + now replace (b + 1 + (j - 1)) with (b + j) by lia.
Qed.

Lemma memcmp_loop_swap (k : nat) (m : mem) (a b : Z) :
  memcmp_loop k m b a = Z.opp <$> memcmp_loop k m a b.
Proof.
  revert a b. induction k as [|k IH]; intros a b; [reflexivity|].
  cbn [memcmp_loop]. unfold load.
  destruct (m !! a) as [x|], (m !! b) as [y|]; cbn [mbind option_bind fmap option_fmap option_map];
    try reflexivity.
  destruct (decide (u8 y ≠ u8 x)) as [H1|H1], (decide (u8 x ≠ u8 y)) as [H2|H2].
  - cbn. f_equal. lia.
  - exfalso. apply H2. intros He. apply H1. now symmetry.
  - exfalso. apply H1. intros He. apply H2. now symmetry.
  - apply IH.
Qed.

(** C8: [memcmp(a, b, n)] is 0 when the first [n] bytes of [a] and [b] are
    equal, and otherwise the difference of the first differing pair taken
    as unsigned bytes, positive exactly when the byte of [a] is the larger;
    hence [memcmp(a, a, n)] is 0 and [memcmp(b, a, n)] is the negation of
    [memcmp(a, b, n)]. *)
Theorem memcmp_first_difference (m : mem) (a b n : Z) :
  is_size_t n -> allocated m a n -> allocated m b n ->
  ((forall i, 0 <= i < n -> m !! (a + i) = m !! (b + i)) ->
   memcmp m a b n = Some 0) /\
  (forall k x y,
     0 <= k < n ->
     (forall i, 0 <= i < k -> m !! (a + i) = m !! (b + i)) ->
     m !! (a + k) = Some x -> m !! (b + k) = Some y -> x <> y ->
     memcmp m a b n = Some (u8 x - u8 y) /\
     u8 x - u8 y <> 0 /\ (0 < u8 x - u8 y <-> u8 y < u8 x)) /\
  memcmp m a a n = Some 0 /\
  memcmp m b a n = Z.opp <$> memcmp m a b n.
Proof.
  intros [Hn _] Ha Hb. unfold memcmp. split; [|split; [|split]].
  - intros Heq. apply memcmp_loop_equal; rewrite Z2Nat.id by lia; assumption.
  - intros k x y Hk Heq Hx Hy Hne.
    assert (Hu : u8 x <> u8 y) by (intros He; apply Hne, u8_inj, He).
    split; [|lia].
    apply (memcmp_loop_first_diff _ m a b k); try assumption; [lia|].
    apply (allocated_weaken m a n); [exact Ha|lia|lia].
  - apply memcmp_loop_equal; rewrite Z2Nat.id by lia; [assumption|reflexivity].
  - apply memcmp_loop_swap.
Qed.

(** ** Properties of the numeric primitives *)

(** *** Comparison *)

Lemma SFcompare_swap (a b : spec_float) :
  SFcompare b a = option_map CompOpp (SFcompare a b).
Proof.
  destruct a as [sa|sa| |sa ma ea], b as [sb|sb| |sb mb eb]; cbn;
    try reflexivity; try (destruct sa; reflexivity);
    try (destruct sb; reflexivity);
    try (destruct sa, sb; reflexivity).
  unfold SFcompare, option_map.
  replace (PosDef.Pos.compare_cont Eq mb ma)
    with (CompOpp (PosDef.Pos.compare_cont Eq ma mb))
    by apply (Pos.compare_cont_antisym ma mb Eq).
  rewrite (Z.compare_antisym ea eb).
  destruct sa, sb; try reflexivity; destruct (ea ?= eb); cbn [CompOpp];
    try reflexivity; now rewrite CompOpp_involutive.
Qed.

Lemma SFcompare_nan_iff (a b : spec_float) :
  SFcompare a b = None <-> a = S754_nan \/ b = S754_nan.
Proof.
  destruct a as [sa|sa| |sa ma ea], b as [sb|sb| |sb mb eb]; cbn;
    split; intros H; try discriminate; try reflexivity;
    try (destruct H; discriminate); auto.
Qed.

Lemma SFltb_false_leb (a b : spec_float) :
  a <> S754_nan -> b <> S754_nan -> SFltb a b = false -> SFleb b a = true.
Proof.
  intros Ha Hb. unfold SFltb, SFleb. rewrite (SFcompare_swap a b).
  destruct (SFcompare a b) as [[]|] eqn:E; cbn; try reflexivity; try discriminate.
  apply SFcompare_nan_iff in E. tauto.
Qed.

Lemma SFltb_leb (a b : spec_float) : SFltb a b = true -> SFleb a b = true.
Proof.
  unfold SFltb, SFleb. destruct (SFcompare a b) as [[]|]; congruence.
Qed.

Lemma SFleb_refl (a : spec_float) : a <> S754_nan -> SFleb a a = true.
Proof.
  intros Ha. unfold SFleb.
  destruct a as [s|s| |s m e]; cbn; try reflexivity; try congruence.
  - destruct s; reflexivity.
  - destruct s; rewrite Z.compare_refl, Pos.compare_cont_refl; reflexivity.
Qed.

(** *** Bit patterns *)

Lemma isnan_SF (x : Z) : isnan x = true <-> SF_of_bits x = S754_nan.
Proof.
  unfold isnan, SF_of_bits, exp_field, frac_field.
  destruct (Z.land (Z.shiftr x 52) 0x7FF =? 0x7FF);
    destruct (Z.land x 0xFFFFFFFFFFFFF =? 0); cbn;
    try destruct (Z.land (Z.shiftr x 52) 0x7FF =? 0);
    split; intros H; try discriminate; try reflexivity.
Qed.

Lemma isnan_false_SF (x : Z) : isnan x = false -> SF_of_bits x <> S754_nan.
Proof. intros H E. apply isnan_SF in E. congruence. Qed.

(** C9: when exactly one of [x], [y] is a NaN, [fmin] and [fmax] return the
    other argument; when neither is, [fmin] returns one of them that is
    at most both and [fmax] one that is at least both. *)
Theorem fmin_fmax_nan_tolerant (x y : Z) :
  (isnan x = true -> isnan y = false -> fmin x y = y /\ fmax x y = y) /\
  (isnan x = false -> isnan y = true -> fmin x y = x /\ fmax x y = x) /\
  (isnan x = false -> isnan y = false ->
     (fmin x y = x \/ fmin x y = y) /\
     dle (fmin x y) x = true /\ dle (fmin x y) y = true /\
     (fmax x y = x \/ fmax x y = y) /\
     dle x (fmax x y) = true /\ dle y (fmax x y) = true).
Proof.
  unfold fmin, fmax, dgt, dlt, dle. split; [|split].
  - intros -> _. now split.
  - intros -> ->. now split.
  - intros Hx Hy. rewrite Hx, Hy.
    pose proof (isnan_false_SF x Hx) as Nx.
    pose proof (isnan_false_SF y Hy) as Ny.
    destruct (SFltb (SF_of_bits x) (SF_of_bits y)) eqn:Exy;
      destruct (SFltb (SF_of_bits y) (SF_of_bits x)) eqn:Eyx;
      repeat split; auto using SFleb_refl, SFltb_leb, SFltb_false_leb.
Qed.

(** C10: when [x] and [y] are both NaN, [fmin] and [fmax] return the second
    argument [y], a NaN. *)
Theorem fmin_fmax_both_nan (x y : Z) :
  isnan x = true -> isnan y = true ->
  fmin x y = y /\ fmax x y = y /\
  isnan (fmin x y) = true /\ isnan (fmax x y) = true.
Proof.
  intros Hx Hy. unfold fmin, fmax. rewrite Hx. auto.
Qed.

(** *** Zero and the sign of a pattern *)

Lemma SF_of_bits_zero : SF_of_bits d_0_0 = S754_zero false.
Proof. reflexivity. Qed.

Lemma dlt_zero_cases (x : Z) :
  dlt x d_0_0 = true ->
  SF_of_bits x = S754_infinity true \/
  exists m e, SF_of_bits x = S754_finite true m e.
Proof.
  unfold dlt. rewrite SF_of_bits_zero.
  destruct (SF_of_bits x) as [s|s| |s m e]; cbn; try discriminate;
    destruct s; try discriminate; eauto.
Qed.

Lemma deq_zero_cases (x : Z) :
  deq x d_0_0 = true -> exists s, SF_of_bits x = S754_zero s.
Proof.
  unfold deq. rewrite SF_of_bits_zero.
  destruct (SF_of_bits x) as [s|s| |s m e]; cbn; try discriminate;
    try (destruct s; discriminate); eauto.
Qed.

Lemma zero_bits (x : Z) (s : bool) :
  is_double x -> SF_of_bits x = S754_zero s -> x = sign_bits s.
Proof.
  intros Hx. unfold SF_of_bits, exp_field, frac_field, sign_field.
  change 0x7FF with (Z.ones 11). change 0xFFFFFFFFFFFFF with (Z.ones 52).
  rewrite !Z.land_ones, Z.shiftr_div_pow2, Z.testbit_odd, Z.shiftr_div_pow2 by lia.
  destruct (_ =? Z.ones 11); [destruct (_ =? 0); discriminate|].
  destruct (Z.eqb_spec ((x / 2 ^ 52) mod 2 ^ 11) 0) as [He|]; [|discriminate].
  destruct (Z.eqb_spec (x mod 2 ^ 52) 0) as [Hf|]; [|discriminate].
  intros [= <-]. unfold is_double in Hx.
  assert (Hq : x / 2 ^ 63 = 0 \/ x / 2 ^ 63 = 1).
  { assert (0 <= x / 2 ^ 63 < 2); [|lia].
    split; [apply Z.div_pos; lia|apply Z.div_lt_upper_bound; lia]. }
  assert (Hd : x / 2 ^ 63 = x / 2 ^ 52 / 2 ^ 11)
    by (rewrite Z.div_div by lia; reflexivity).
  pose proof (Z.div_mod x (2 ^ 52)). pose proof (Z.div_mod (x / 2 ^ 52) (2 ^ 11)).
  destruct Hq as [Hq|Hq]; rewrite Hq; cbn [Z.odd sign_bits]; lia.
Qed.

(** *** [sqrt] *)

Lemma sqrt_loop_S (f : nat) (x g : Z) :
  Portable.sqrt_loop (S f) x g =
  if dgt (Portable.fabs (dsub (dmul (dadd g (ddiv x g)) d_0_5) g)) d_1e_15
  then Portable.sqrt_loop f x (dmul (dadd g (ddiv x g)) d_0_5)
  else Some (dmul (dadd g (ddiv x g)) d_0_5).
Proof. reflexivity. Qed.

(** More fuel does not change a result. *)
Lemma sqrt_loop_fuel_mono (f f' : nat) (x g r : Z) :
  (f <= f')%nat -> Portable.sqrt_loop f x g = Some r ->
  Portable.sqrt_loop f' x g = Some r.
Proof.
  revert f' g. induction f as [|f IH]; intros f' g Hle H; [discriminate|].
  destruct f' as [|f']; [lia|]. rewrite sqrt_loop_S in H |- *.
  set (g' := dmul _ d_0_5) in *. set (c := dgt _ d_1e_15) in *.
  clearbody c g'. destruct c; [|exact H]. apply IH; [lia|exact H].
Qed.

(** C7: [sqrt(x)] is a NaN for every [x < 0]; it is [x] itself, sign
    included, for every [x == 0], so that [sqrt(0.0)] is the positive zero;
    and [sqrt(4.0)] is [2.0].  All three hold on the x86-64 build and on
    the portable build, where the first two need no iteration. *)
Theorem sqrt_special_values (x : Z) :
  is_double x ->
  (dlt x d_0_0 = true ->
     isnan (X86_64.sqrt x) = true /\
     exists r, (forall fuel, Portable.sqrt fuel x = Some r) /\ isnan r = true) /\
  (deq x d_0_0 = true ->
     X86_64.sqrt x = x /\ forall fuel, Portable.sqrt fuel x = Some x) /\
  (X86_64.sqrt d_0_0 = d_0_0 /\ Portable.sqrt 0 d_0_0 = Some d_0_0) /\
  (X86_64.sqrt 0x4010000000000000 = 0x4000000000000000 /\
   exists fuel, Portable.sqrt fuel 0x4010000000000000 = Some 0x4000000000000000).
Proof.
  intros Hx. split; [|split; [|split]].
  - intros Hlt. split.
    + unfold X86_64.sqrt, fldl, fsqrt.
      destruct (dlt_zero_cases x Hlt) as [->|(m & e & ->)]; reflexivity.
    + exists (ddiv d_0_0 d_0_0). split; [|vm_compute; reflexivity].
      intros fuel. unfold Portable.sqrt. now rewrite Hlt.
  - intros Heq. destruct (deq_zero_cases x Heq) as [s Hs].
    pose proof (zero_bits x s Hx Hs) as ->. split.
    + destruct s; vm_compute; reflexivity.
    + intros fuel. destruct s; vm_compute; reflexivity.
  - split; vm_compute; reflexivity.
  - split; [vm_compute; reflexivity|]. exists 10%nat. vm_compute. reflexivity.
Qed.

Lemma forallb_range (P : Z -> bool) (lo : Z) (n : nat) :
  forallb P (map (fun i => lo + Z.of_nat i) (seq 0 n)) = true ->
  forall k, lo <= k < lo + Z.of_nat n -> P k = true.
Proof.
  intros H k Hk. rewrite forallb_forall in H. apply H.
  apply in_map_iff. exists (Z.to_nat (k - lo)). split; [lia|].
  apply in_seq. lia.
Qed.

(** C5: [round(x)] is [floor(x + 0.5)] for every [x], on both builds, and
    the [floor] in it rounds down: for every quarter [k / 4] between -250
    and 250, [round(k / 4)] is the integer [floor(k / 4 + 1 / 2)], so that
    [round(2.25)] is [2.0], [round(2.75)] is [3.0], [round(-2.25)] is
    [-2.0] and [round(-2.75)] is [-3.0].  Halves go up, whatever their
    sign or the parity of the integer below: [round(2.5)] is [3.0],
    [round(-2.5)] is [-2.0] and [round(-0.5)] is [0.0]. *)
Theorem round_is_floor_of_half_added :
  (forall x, Portable.round x = Portable.floor (dadd x d_0_5)) /\
  (forall cw x, X86_64.round cw x = X86_64.floor cw (dadd x d_0_5)) /\
  Portable.round 0x4004000000000000 = Some 0x4008000000000000 /\
  Portable.round 0xC004000000000000 = Some 0xC000000000000000 /\
  X86_64.round fpu_cw_default 0x4004000000000000 = 0x4008000000000000 /\
  X86_64.round fpu_cw_default 0xC004000000000000 = 0xC000000000000000 /\
  (forall k, -1000 <= k <= 1000 ->
     Portable.round (quarter k) = Some (double_of_ll ((k + 2) / 4)) /\
     X86_64.round fpu_cw_default (quarter k) = double_of_ll ((k + 2) / 4)) /\
  (Portable.round 0x4002000000000000 = Some 0x4000000000000000 /\
   Portable.round 0x4006000000000000 = Some 0x4008000000000000 /\
   Portable.round 0xC002000000000000 = Some 0xC000000000000000 /\
   Portable.round 0xC006000000000000 = Some 0xC008000000000000 /\
   Portable.round 0xBFE0000000000000 = Some 0) /\
  (X86_64.round fpu_cw_default 0x4002000000000000 = 0x4000000000000000 /\
   X86_64.round fpu_cw_default 0x4006000000000000 = 0x4008000000000000 /\
   X86_64.round fpu_cw_default 0xC002000000000000 = 0xC000000000000000 /\
   X86_64.round fpu_cw_default 0xC006000000000000 = 0xC008000000000000 /\
   X86_64.round fpu_cw_default 0xBFE0000000000000 = 0).
Proof.
  split; [reflexivity|]. split; [reflexivity|].
  do 4 (split; [vm_compute; reflexivity|]).
  split; [|split; repeat split; vm_compute; reflexivity].
  intros k Hk.
  pose (P := fun k =>
    match Portable.round (quarter k) with
    | Some r => r =? double_of_ll ((k + 2) / 4)
    | None => false
    end
    && (X86_64.round fpu_cw_default (quarter k) =? double_of_ll ((k + 2) / 4))).
  assert (HP : P k = true).
  { apply (forallb_range P (-1000) 2001); [vm_compute; reflexivity|lia]. }
  unfold P in HP. apply andb_true_iff in HP. destruct HP as [H1 H2].
  destruct (Portable.round (quarter k)) as [r|]; [|discriminate].
  apply Z.eqb_eq in H1. apply Z.eqb_eq in H2. rewrite H1, H2. split; reflexivity.
Qed.

(** *** [fmod] *)

Lemma fprem_zero_divisor (N : Z) (st0 : spec_float) (s : bool) :
  fprem N st0 (S754_zero s) = (S754_nan, false).
Proof. destruct st0; reflexivity. Qed.

(** C6 at [x = 1.0], [y = 0.1]: the quotient [1.0 / 0.1] rounds to [10.0],
    so the portable [fmod], which rounds the quotient and the product to
    [double], returns [0.0], where [x - trunc(x/y) * y] with the quotient
    and the product not rounded is [0.09999999999999995], the value that
    the x86-64 build returns.  At [x = 1e17], [y = 3.0] the portable
    build returns [0.0] for the value [1.0], and at [x = 1e19], [y = 1.0]
    it has no result for the value [0.0].  The rest of what is said of
    [fmod] holds on both builds: the result is a NaN for every [y] that
    is zero, and [fmod(5.5, 2.0)] is [1.5]. *)
Theorem portable_fmod_loses_the_remainder :
  (fmod_formula d_1_0 0x3FB999999999999A = Some 0x3FB9999999999996 /\
   (forall fuel N, X86_64.fmod (S fuel) N d_1_0 0x3FB999999999999A
      = Some 0x3FB9999999999996) /\
   Portable.fmod d_1_0 0x3FB999999999999A = Some d_0_0) /\
  (fmod_formula 0x4376345785D8A000 0x4008000000000000 = Some d_1_0 /\
   (forall fuel N, X86_64.fmod (S fuel) N 0x4376345785D8A000 0x4008000000000000
      = Some d_1_0) /\
   Portable.fmod 0x4376345785D8A000 0x4008000000000000 = Some d_0_0) /\
  (fmod_formula 0x43E158E460913D00 d_1_0 = Some d_0_0 /\
   (forall fuel N, X86_64.fmod (S fuel) N 0x43E158E460913D00 d_1_0
      = Some d_0_0) /\
   Portable.fmod 0x43E158E460913D00 d_1_0 = None) /\
  (forall x y, deq y d_0_0 = true ->
     (exists r, Portable.fmod x y = Some r /\ isnan r = true) /\
     (forall fuel N, exists r,
        X86_64.fmod (S fuel) N x y = Some r /\ isnan r = true)) /\
  (fmod_formula 0x4016000000000000 0x4000000000000000
     = Some 0x3FF8000000000000 /\
   (forall fuel N, X86_64.fmod (S fuel) N 0x4016000000000000 0x4000000000000000
      = Some 0x3FF8000000000000) /\
   Portable.fmod 0x4016000000000000 0x4000000000000000
     = Some 0x3FF8000000000000).
Proof.
  split; [|split; [|split; [|split]]].
  - split; [vm_compute; reflexivity|]. split; [|vm_compute; reflexivity].
    intros fuel N. vm_compute. reflexivity.
  - split; [vm_compute; reflexivity|]. split; [|vm_compute; reflexivity].
    intros fuel N. vm_compute. reflexivity.
  - split; [vm_compute; reflexivity|]. split; [|vm_compute; reflexivity].
    intros fuel N. vm_compute. reflexivity.
  - intros x y Hy. split.
    + exists (ddiv d_0_0 d_0_0). unfold Portable.fmod. rewrite Hy.
      split; [reflexivity|vm_compute; reflexivity].
    + intros fuel N. destruct (deq_zero_cases y Hy) as [s Hs].
      exists (bits_of_SF S754_nan). split; [|vm_compute; reflexivity].
      assert (Hl : fldl y = S754_zero s) by (unfold fldl; now rewrite Hs).
      unfold X86_64.fmod. rewrite Hl.
      cbn [fprem_loop]. now rewrite fprem_zero_divisor.
  - split; [vm_compute; reflexivity|]. split; [|vm_compute; reflexivity].
    intros fuel N. vm_compute. reflexivity.
Qed.

(** *** [trunc], [floor], [ceil] *)

(** C3 at [x = 1e19], a finite double with no fraction: the portable
    [trunc] converts it to [long long], which cannot hold it, so the
    portable [trunc], [floor] and [ceil] have no defined result there; the
    x86-64 build returns [x] from all three.  Neither the largest nor the
    smallest [long long] converts back to [1e19]. *)
Theorem portable_rounding_undefined_at_1e19 :
  isfinite 0x43E158E460913D00 = true /\
  ll_of_double 0x43E158E460913D00 = None /\
  Portable.trunc 0x43E158E460913D00 = None /\
  Portable.floor 0x43E158E460913D00 = None /\
  Portable.ceil 0x43E158E460913D00 = None /\
  X86_64.trunc fpu_cw_default 0x43E158E460913D00 = 0x43E158E460913D00 /\
  X86_64.floor fpu_cw_default 0x43E158E460913D00 = 0x43E158E460913D00 /\
  X86_64.ceil fpu_cw_default 0x43E158E460913D00 = 0x43E158E460913D00 /\
  double_of_ll (2 ^ 63 - 1) = 0x43E0000000000000 /\
  double_of_ll (- 2 ^ 63) = 0xC3E0000000000000.
Proof.
  repeat split; vm_compute; reflexivity.
Qed.

(** ** The theorems at concrete inputs *)

Lemma abcd_allocated (a n : Z) : 0 <= a -> a + n <= 4 -> allocated abcd a n.
Proof.
  intros Ha Hn i Hi.
  assert (H : a + i = 0 \/ a + i = 1 \/ a + i = 2 \/ a + i = 3) by lia.
  destruct H as [H | [H | [H | H]]]; rewrite H; vm_compute; eauto.
Qed.

Lemma size_t_small (n : Z) : 0 <= n < 4 -> is_size_t n.
Proof. unfold is_size_t. intros H. split; [lia|]. apply Z.lt_trans with 4; [lia|reflexivity]. Qed.

(** [memmove(1, 0, 3)] over ["ABCD"]. *)
Lemma memmove_overlapping_is_snapshot_witness :
  exists m',
    X86_64.memmove abcd 1 0 3 = Some (m', 1) /\
    Portable.memmove abcd 1 0 3 = Some (m', 1) /\
    snapshot_write abcd 1 0 3 = Some (m', 1) /\
    (forall i, 0 <= i < 3 -> m' !! (1 + i) = abcd !! (0 + i)) /\
    load_bytes (Z.to_nat 3) m' 1 = load_bytes (Z.to_nat 3) abcd 0.
Proof.
  apply (memmove_overlapping_is_snapshot abcd 1 0 3).
  - apply size_t_small. lia.
  - apply abcd_allocated; lia.
  - apply abcd_allocated; lia.
  - exists 1. lia.
Defined.

(** [memmove(2, 0, 2)] and [memcpy(2, 0, 2)] over ["ABCD"]. *)
Lemma memmove_disjoint_is_memcpy_witness :
  exists m',
    X86_64.memmove abcd 2 0 2 = Some (m', 2) /\
    X86_64.memcpy abcd 2 0 2 = Some (m', 2) /\
    Portable.memmove abcd 2 0 2 = Some (m', 2) /\
    (forall k, 0 <= k -> Portable.memcpy (2 ^ k) abcd 2 0 2 = Some (m', 2)) /\
    (forall i, 0 <= i < 2 -> m' !! (2 + i) = abcd !! (0 + i)).
Proof.
  apply (memmove_disjoint_is_memcpy abcd 2 0 2).
  - apply size_t_small. lia.
  - apply abcd_allocated; lia.
  - apply abcd_allocated; lia.
  - intros (a & H1 & H2). lia.
Defined.

(** [memcmp] of ["AB"] and ["CD"]: the first bytes differ, by [0x41 - 0x43]. *)
Lemma memcmp_first_difference_witness :
  memcmp abcd 0 2 2 = Some (-2) /\ memcmp abcd 2 0 2 = Some 2 /\
  memcmp abcd 0 0 2 = Some 0.
Proof.
  destruct (memcmp_first_difference abcd 0 2 2) as (_ & Hd & Hr & Hs).
  - apply size_t_small. lia.
  - apply abcd_allocated; lia.
  - apply abcd_allocated; lia.
  - destruct (Hd 0 Byte.x41 Byte.x43) as (H & _); [lia|intros; lia| | |discriminate|];
      try reflexivity.
    split; [exact H|]. split; [|exact Hr]. rewrite Hs, H. reflexivity.
Defined.

(** [sqrt(-1.0)] and [sqrt(-0.0)]. *)
Lemma sqrt_special_values_witness :
  isnan (X86_64.sqrt 0xBFF0000000000000) = true /\
  X86_64.sqrt 0x8000000000000000 = 0x8000000000000000.
Proof.
  split.
  - refine (proj1 (proj1 (sqrt_special_values 0xBFF0000000000000 _) _));
      [split; [lia|reflexivity]|vm_compute; reflexivity].
  - refine (proj1 (proj1 (proj2 (sqrt_special_values 0x8000000000000000 _)) _));
      [split; [lia|reflexivity]|vm_compute; reflexivity].
Defined.

(** [fmin] and [fmax] of a NaN and [1.0], and of [1.0] and [2.0]. *)
Lemma fmin_fmax_nan_tolerant_witness :
  (fmin 0x7FF8000000000000 d_1_0 = d_1_0 /\
   fmax 0x7FF8000000000000 d_1_0 = d_1_0) /\
  dle (fmin d_1_0 0x4000000000000000) 0x4000000000000000 = true.
Proof.
  split.
  - refine (proj1 (fmin_fmax_nan_tolerant 0x7FF8000000000000 d_1_0) _ _);
      vm_compute; reflexivity.
  - refine (proj1 (proj2 (proj2 (proj2
      (fmin_fmax_nan_tolerant d_1_0 0x4000000000000000)) _ _)));
      vm_compute; reflexivity.
Defined.

(** [fmin] and [fmax] of two NaN with different payloads. *)
Lemma fmin_fmax_both_nan_witness :
  fmin 0x7FF8000000000001 0xFFF8000000000002 = 0xFFF8000000000002 /\
  fmax 0x7FF8000000000001 0xFFF8000000000002 = 0xFFF8000000000002 /\
  isnan (fmin 0x7FF8000000000001 0xFFF8000000000002) = true /\
  isnan (fmax 0x7FF8000000000001 0xFFF8000000000002) = true.
Proof.
  refine (fmin_fmax_both_nan 0x7FF8000000000001 0xFFF8000000000002 _ _);
    vm_compute; reflexivity.
Defined.

(** ** [memset] and the block functions together *)

Lemma u8_byte_of_int (c : Z) : u8 (byte_of_int c) = c mod 256.
Proof.
  unfold u8, byte_of_int.
  assert (Hr : 0 <= c mod 256 < 256) by (apply Z.mod_pos_bound; lia).
  destruct (Byte.of_N (Z.to_N (c mod 256))) as [b|] eqn:E; simpl.
  - apply Byte.to_of_N in E. rewrite E. lia.
  - apply Byte.of_N_None_iff in E. lia.
Qed.

Lemma u8_range (b : Byte.byte) : 0 <= u8 b <= 255.
Proof. unfold u8. pose proof (Byte.to_N_bounded b). lia. Qed.

Lemma store_Some (m : mem) (a : Z) (v : Byte.byte) :
  is_Some (m !! a) -> store m a v = Some (<[a:=v]> m).
Proof. intros H. unfold store. destruct (decide _); [reflexivity|contradiction]. Qed.

Lemma store_None (m : mem) (a : Z) (v : Byte.byte) :
  m !! a = None -> store m a v = None.
Proof.
  intros H. unfold store. destruct (decide _) as [[x Hx]|]; [congruence|reflexivity].
Qed.

Lemma fill_loop_spec (k : nat) (m : mem) (p : Z) (v : Byte.byte) :
  allocated m p (Z.of_nat k) ->
  exists m', fill_loop k m p v = Some (m', p + Z.of_nat k) /\
    (forall i, 0 <= i < Z.of_nat k -> m' !! (p + i) = Some v) /\
    (forall a, ~ (p <= a < p + Z.of_nat k) -> m' !! a = m !! a).
Proof.
  revert m p. induction k as [|k IH]; intros m p Ha.
  - exists m. simpl. rewrite Z.add_0_r. split; [reflexivity|]. split; [lia|auto].
  - assert (Hp : is_Some (m !! p)).
    { specialize (Ha 0). rewrite Z.add_0_r in Ha. apply Ha. lia. }
    destruct (IH (<[p:=v]> m) (p + 1)) as (m' & E & Hin & Hout).
    { intros i Hi. destruct (decide (p = p + 1 + i)) as [<-|Hne].
      - rewrite lookup_insert_eq. eauto.
      - rewrite lookup_insert_ne by exact Hne.
        replace (p + 1 + i) with (p + (1 + i)) by lia. apply Ha. lia. }
    exists m'. cbn [fill_loop]. rewrite (store_Some _ _ _ Hp). cbn [mbind option_bind].
    rewrite E. split; [tuple_eq|]. split.
    + intros i Hi. destruct (decide (i = 0)) as [->|Hi0].
      * rewrite Z.add_0_r, Hout by lia. apply lookup_insert_eq.
      * replace (p + i) with (p + 1 + (i - 1)) by lia. apply Hin. lia.
    + intros a Hna. rewrite Hout by lia. apply lookup_insert_ne. lia.
Qed.

Lemma fill_loop_unallocated (k : nat) (m : mem) (p : Z) (v : Byte.byte) (i : Z) :
  0 <= i < Z.of_nat k -> m !! (p + i) = None -> fill_loop k m p v = None.
Proof.
  revert m p i. induction k as [|k IH]; intros m p i Hi Hn; [lia|].
  cbn [fill_loop]. destruct (decide (i = 0)) as [->|Hi0].
  - rewrite Z.add_0_r in Hn. rewrite (store_None _ _ _ Hn). reflexivity.
  - destruct (store m p v) as [m1|] eqn:E; [|reflexivity]. cbn [mbind option_bind].
    unfold store in E. destruct (decide _); [|discriminate]. injection E as <-.
    apply (IH _ _ (i - 1)); [lia|].
    rewrite lookup_insert_ne by lia. replace (p + 1 + (i - 1)) with (p + i) by lia.
    exact Hn.
Qed.

(** X1.  [memset(s, c, n)] over an allocated range: both builds return [s]
    and the same memory, in which every byte of [s[0..n)] has the value of
    [(unsigned char)c], that is [c mod 256], and no other byte has
    changed. *)
Theorem memset_fills_range (m : mem) (s c n : Z) :
  is_size_t n -> allocated m s n ->
  exists m',
    X86_64.memset m s c n = Some (m', s) /\
    Portable.memset m s c n = Some (m', s) /\
    (forall i, 0 <= i < n ->
       exists b, m' !! (s + i) = Some b /\ u8 b = c mod 256) /\
    (forall a, ~ (s <= a < s + n) -> m' !! a = m !! a).
Proof.
  intros [Hn _] Ha.
  destruct (fill_loop_spec (Z.to_nat n) m s (byte_of_int c)) as (m' & E & Hin & Hout).
  { rewrite Z2Nat.id by exact Hn. exact Ha. }
  rewrite Z2Nat.id in Hin, Hout by exact Hn.
  exists m'. unfold X86_64.memset, Portable.memset, rep_stosb. rewrite E.
  repeat split; try reflexivity.
  - intros i Hi. exists (byte_of_int c). split; [apply Hin, Hi|apply u8_byte_of_int].
  - exact Hout.
Qed.

(** X2.  [memset] over a range of which one byte is not allocated has no
    defined result, on either build. *)
Theorem memset_out_of_bounds (m : mem) (s c n i : Z) :
  0 <= i < n -> m !! (s + i) = None ->
  X86_64.memset m s c n = None /\ Portable.memset m s c n = None.
Proof.
  intros Hi Hn. unfold X86_64.memset, Portable.memset, rep_stosb.
  rewrite (fill_loop_unallocated (Z.to_nat n) m s _ i) by (try lia; exact Hn).
  split; reflexivity.
Qed.

(** X3.  [memmove(dest, src, n)] over allocated ranges, overlapping or
    not: both builds return [dest] and the same memory, in which
    [dest[0..n)] holds what [src[0..n)] held before the call, every byte
    outside [dest[0..n)] is as before, and the same addresses are
    allocated. *)
Theorem memmove_changes_only_dest (m : mem) (dest src n : Z) :
  is_size_t n -> allocated m dest n -> allocated m src n ->
  exists m',
    X86_64.memmove m dest src n = Some (m', dest) /\
    Portable.memmove m dest src n = Some (m', dest) /\
    (forall i, 0 <= i < n -> m' !! (dest + i) = m !! (src + i)) /\
    (forall a, ~ (dest <= a < dest + n) -> m' !! a = m !! a) /\
    (forall a, is_Some (m' !! a) <-> is_Some (m !! a)).
Proof.
  intros [Hn _] Hd Hs.
  destruct (X86_64_memmove_spec m dest src n Hn Hd Hs) as (m1 & E1 & C1).
  destruct (Portable_memmove_spec m dest src n Hn Hd Hs) as (m2 & E2 & C2).
  assert (m2 = m1) as -> by (eapply is_copy_unique; eassumption).
  exists m1. destruct C1 as [Hin Hout].
  repeat split; try assumption.
  - intros H. destruct (decide (dest <= a < dest + n)) as [Hr|Hr].
    + replace a with (dest + (a - dest)) by lia. apply Hd. lia.
    + rewrite <- Hout by exact Hr. exact H.
  - intros H. destruct (decide (dest <= a < dest + n)) as [Hr|Hr].
    + replace a with (dest + (a - dest)) by lia. rewrite Hin by lia. apply Hs. lia.
    + rewrite Hout by exact Hr. exact H.
Qed.

(** X4.  After [memcpy(dest, src, n)] between ranges that do not overlap,
    [memcmp(dest, src, n)] is 0 in the new memory, in either order of
    the arguments and whichever build made the copy. *)
Theorem memcpy_then_memcmp_is_zero (m : mem) (dest src n : Z) :
  is_size_t n -> allocated m dest n -> allocated m src n ->
  ~ ranges_overlap dest src n ->
  exists m',
    X86_64.memcpy m dest src n = Some (m', dest) /\
    (forall k, 0 <= k -> Portable.memcpy (2 ^ k) m dest src n = Some (m', dest)) /\
    memcmp m' dest src n = Some 0 /\
    memcmp m' src dest n = Some 0.
Proof.
  intros [Hn Hn'] Hd Hs Hno.
  assert (Hdis : dest <= src \/ src + n <= dest).
  { destruct (decide (dest <= src)) as [|H1]; [left; assumption|right].
    destruct (decide (src + n <= dest)) as [|H2]; [assumption|].
    exfalso. apply Hno. exists dest. lia. }
  assert (Hsep : forall i, 0 <= i < n -> ~ (dest <= src + i < dest + n)).
  { intros i Hi Hr. apply Hno. exists (src + i). lia. }
  destruct (X86_64_memcpy_spec m dest src n Hn Hd Hs Hdis) as (m1 & E1 & C1).
  exists m1. split; [exact E1|]. split.
  { intros k Hk.
    destruct (Portable_memcpy_spec k m dest src n Hk Hn Hd Hs Hdis) as (m2 & E2 & C2).
    assert (m2 = m1) as -> by (eapply is_copy_unique; eassumption). exact E2. }
  destruct C1 as [Hin Hout].
  assert (Heq : forall i, 0 <= i < n -> m1 !! (dest + i) = m1 !! (src + i)).
  { intros i Hi. rewrite Hin by exact Hi. symmetry. apply Hout, Hsep, Hi. }
  unfold memcmp. split.
  - apply memcmp_loop_equal.
    + rewrite Z2Nat.id by exact Hn. intros i Hi. rewrite Hin by exact Hi. apply Hs, Hi.
    + rewrite Z2Nat.id by exact Hn. exact Heq.
  - apply memcmp_loop_equal.
    + rewrite Z2Nat.id by exact Hn. intros i Hi. rewrite Hout by (apply Hsep, Hi).
      apply Hs, Hi.
    + rewrite Z2Nat.id by exact Hn. intros i Hi. symmetry. apply Heq, Hi.
Qed.

Lemma memcmp_loop_result (k : nat) (m : mem) (a b r : Z) :
  memcmp_loop k m a b = Some r ->
  -255 <= r <= 255 /\
  (r = 0 <->
   forall i, 0 <= i < Z.of_nat k -> m !! (a + i) = m !! (b + i)).
Proof.
  revert a b. induction k as [|k IH]; intros a b E.
  - simpl in E. injection E as <-. split; [lia|]. split; [intros; lia|reflexivity].
  - cbn [memcmp_loop] in E.
    destruct (load m a) as [x|] eqn:Ex; [|discriminate].
    destruct (load m b) as [y|] eqn:Ey; [|discriminate].
    cbn [mbind option_bind] in E. unfold load in Ex, Ey.
    destruct (decide (u8 x ≠ u8 y)) as [Hne|Heq].
    + injection E as <-. pose proof (u8_range x). pose proof (u8_range y).
      split; [lia|]. split; [lia|].
      intros Hall. specialize (Hall 0). rewrite !Z.add_0_r, Ex, Ey in Hall.
      exfalso. apply Hne. assert (Some x = Some y) as [= ->] by (apply Hall; lia).
      reflexivity.
    + assert (x = y) as -> by (apply u8_inj; lia).
      destruct (IH _ _ E) as (Hr & Hz). split; [exact Hr|].
      rewrite Hz. split.
      * intros H i Hi. destruct (decide (i = 0)) as [->|Hi0].
        -- rewrite !Z.add_0_r. congruence.
        -- replace (a + i) with (a + 1 + (i - 1)) by lia.
           replace (b + i) with (b + 1 + (i - 1)) by lia. apply H. lia.
      * intros H i Hi. replace (a + 1 + i) with (a + (1 + i)) by lia.
        replace (b + 1 + i) with (b + (1 + i)) by lia. apply H. lia.
Qed.

(** X5.  Whenever [memcmp(a, b, n)] has a result, the result lies between
    -255 and 255, and it is 0 exactly when the two ranges hold the same
    bytes. *)
Theorem memcmp_zero_iff_equal (m : mem) (a b n r : Z) :
  0 <= n -> memcmp m a b n = Some r ->
  -255 <= r <= 255 /\
  (r = 0 <-> forall i, 0 <= i < n -> m !! (a + i) = m !! (b + i)).
Proof.
  intros Hn E. unfold memcmp in E. apply memcmp_loop_result in E.
  rewrite Z2Nat.id in E by exact Hn. exact E.
Qed.

(** ** Strings *)

Lemma cstring_lookup (m : mem) (s : Z) (l : list Byte.byte) :
  cstring m s l <->
  (forall (i : nat) b, l !! i = Some b ->
     m !! (s + Z.of_nat i) = Some b /\ b <> NUL) /\
  m !! (s + len l) = Some NUL.
Proof.
  unfold len. revert s. induction l as [|x l IH]; intros s.
  - simpl. rewrite Z.add_0_r. split; [intros H; split; [intros i b Hi; discriminate|exact H]|tauto].
  - cbn [cstring]. rewrite IH. cbn [length]. split.
    + intros (Hx & Hnz & Hl & Hend). split.
      * intros [|i] b Hi.
        -- simpl in Hi. injection Hi as <-. rewrite Z.add_0_r. auto.
        -- simpl in Hi. replace (s + Z.of_nat (S i)) with (s + 1 + Z.of_nat i) by lia.
           apply Hl, Hi.
      * replace (s + Z.of_nat (S (length l))) with (s + 1 + Z.of_nat (length l)) by lia.
        exact Hend.
    + intros (Hl & Hend).
      destruct (Hl O x eq_refl) as (Hx & Hnz). rewrite Z.add_0_r in Hx.
      split; [exact Hx|]. split; [exact Hnz|]. split.
      * intros i b Hi. replace (s + 1 + Z.of_nat i) with (s + Z.of_nat (S i)) by lia.
        apply Hl. exact Hi.
      * replace (s + 1 + Z.of_nat (length l)) with (s + Z.of_nat (S (length l))) by lia.
        exact Hend.
Qed.

Lemma cstring_allocated (m : mem) (s : Z) (l : list Byte.byte) :
  cstring m s l -> allocated m s (len l + 1).
Proof.
  rewrite cstring_lookup. unfold len. intros (Hl & Hend) i Hi.
  destruct (decide (i = Z.of_nat (length l))) as [->|Hne]; [eauto|].
  destruct (lookup_lt_is_Some_2 l (Z.to_nat i)) as (b & Hb); [lia|].
  apply Hl in Hb. rewrite Z2Nat.id in Hb by lia. destruct Hb. eauto.
Qed.

Lemma cstring_ext (m m' : mem) (s : Z) (l : list Byte.byte) :
  (forall i, 0 <= i <= len l -> m' !! (s + i) = m !! (s + i)) ->
  cstring m s l -> cstring m' s l.
Proof.
  rewrite !cstring_lookup. unfold len. intros He (Hl & Hend). split.
  - intros i b Hi. rewrite He; [apply Hl, Hi|].
    apply lookup_lt_Some in Hi. lia.
  - rewrite He by lia. exact Hend.
Qed.

Lemma cstring_inj (m : mem) (s : Z) (l1 l2 : list Byte.byte) :
  cstring m s l1 -> cstring m s l2 -> l1 = l2.
Proof.
  revert s l2. induction l1 as [|x l1 IH]; intros s [|y l2]; cbn [cstring].
  - reflexivity.
  - intros H (H' & Hn & _). congruence.
  - intros (H' & Hn & _) H. congruence.
  - intros (Hx & _ & H1) (Hy & _ & H2). f_equal; [congruence|]. eapply IH; eassumption.
Qed.

Lemma cstring_app (m : mem) (s : Z) (l1 l2 : list Byte.byte) :
  (forall (i : nat) b, l1 !! i = Some b ->
     m !! (s + Z.of_nat i) = Some b /\ b <> NUL) ->
  cstring m (s + len l1) l2 -> cstring m s (l1 ++ l2).
Proof.
  unfold len. revert s. induction l1 as [|x l1 IH]; intros s Hl H2.
  - simpl in *. rewrite Z.add_0_r in H2. exact H2.
  - cbn [app cstring]. destruct (Hl O x eq_refl) as (Hx & Hnz).
    rewrite Z.add_0_r in Hx. repeat split; try assumption.
    apply IH.
    + intros i b Hi. replace (s + 1 + Z.of_nat i) with (s + Z.of_nat (S i)) by lia.
      apply Hl. exact Hi.
    + cbn [length] in H2.
      replace (s + 1 + Z.of_nat (length l1)) with (s + Z.of_nat (S (length l1))) by lia.
      exact H2.
Qed.

(** *** [strlen] *)

Lemma count_loop_spec (l : list Byte.byte) (fuel : nat) (m : mem) (s c : Z) :
  cstring m s l -> 0 <= c -> c + len l < 2 ^ 64 -> (length l < fuel)%nat ->
  count_loop fuel m s c = Some (c + len l).
Proof.
  unfold len. revert fuel s c. induction l as [|x l IH]; intros fuel s c Hs Hc0 Hc Hf;
    (destruct fuel as [|fuel]; [simpl in Hf; lia|]); cbn [count_loop cstring length] in *.
  - unfold load. rewrite Hs. cbn [mbind option_bind]. rewrite decide_True by reflexivity.
    f_equal. lia.
  - destruct Hs as (Hx & Hnz & Hs). unfold load. rewrite Hx.
    cbn [mbind option_bind]. rewrite decide_False by exact Hnz.
    rewrite Z.mod_small by lia.
    rewrite (IH fuel (s + 1) (c + 1) Hs) by lia. f_equal. lia.
Qed.

(** X6.  The portable [strlen(s)] of a terminated string returns the
    number of bytes before the terminator, once [fuel] exceeds that
    number. *)
Theorem strlen_counts_bytes (m : mem) (s : Z) (l : list Byte.byte) (fuel : nat) :
  cstring m s l -> len l < 2 ^ 64 -> (length l < fuel)%nat ->
  Portable.strlen fuel m s = Some (len l).
Proof.
  intros Hs Hl Hf. unfold Portable.strlen.
  rewrite (count_loop_spec l) by (try assumption; unfold len in *; lia).
  reflexivity.
Qed.

Lemma unterminated_count (fuel : nat) (m : mem) (s k c : Z) :
  0 <= k ->
  (forall i, 0 <= i < k -> exists b, m !! (s + i) = Some b /\ b <> NUL) ->
  m !! (s + k) = None ->
  count_loop fuel m s c = None.
Proof.
  revert s k c. induction fuel as [|fuel IH]; intros s k c Hk Hb Hend; [reflexivity|].
  cbn [count_loop]. unfold load. destruct (decide (k = 0)) as [->|Hk0].
  - rewrite Z.add_0_r in Hend. rewrite Hend. reflexivity.
  - destruct (Hb 0) as (b & Hb0 & Hnz); [lia|]. rewrite Z.add_0_r in Hb0.
    rewrite Hb0. cbn [mbind option_bind]. rewrite decide_False by exact Hnz.
    apply (IH (s + 1) (k - 1)); [lia| |].
    + intros i Hi. replace (s + 1 + i) with (s + (1 + i)) by lia. apply Hb. lia.
    + replace (s + 1 + (k - 1)) with (s + k) by lia. exact Hend.
Qed.

Lemma unterminated_scan (fuel : nat) (m : mem) (s k cx : Z) :
  0 <= k < cx ->
  (forall i, 0 <= i < k -> exists b, m !! (s + i) = Some b /\ b <> NUL) ->
  m !! (s + k) = None ->
  repne_scasb fuel m NUL s cx = None.
Proof.
  revert s k cx. induction fuel as [|fuel IH]; intros s k cx Hk Hb Hend; [reflexivity|].
  cbn [repne_scasb]. destruct (Z.eqb_spec cx 0) as [|_]; [lia|].
  unfold load. destruct (decide (k = 0)) as [->|Hk0].
  - rewrite Z.add_0_r in Hend. rewrite Hend. reflexivity.
  - destruct (Hb 0) as (b & Hb0 & Hnz); [lia|]. rewrite Z.add_0_r in Hb0.
    rewrite Hb0. cbn [mbind option_bind]. rewrite decide_False by exact Hnz.
    apply (IH (s + 1) (k - 1)); [lia| |].
    + intros i Hi. replace (s + 1 + i) with (s + (1 + i)) by lia. apply Hb. lia.
    + replace (s + 1 + (k - 1)) with (s + k) by lia. exact Hend.
Qed.

(** X7.  [strlen] of bytes that are followed by no terminator inside the
    allocated memory: when [k] bytes that are not zero are followed by an
    address that is not allocated, the call has no defined result on
    either build, whatever the bound on its iterations. *)
Theorem strlen_unterminated (m : mem) (s k : Z) (fuel : nat) :
  0 <= k < 2 ^ 64 - 1 ->
  (forall i, 0 <= i < k -> exists b, m !! (s + i) = Some b /\ b <> NUL) ->
  m !! (s + k) = None ->
  X86_64.strlen fuel m s = None /\ Portable.strlen fuel m s = None.
Proof.
  intros Hk Hb Hend. split.
  - unfold X86_64.strlen. change (byte_of_int 0) with NUL.
    rewrite (unterminated_scan fuel m s k) by (try assumption; lia). reflexivity.
  - unfold Portable.strlen. apply (unterminated_count fuel m s k); [lia|assumption..].
Qed.

(** *** [strcpy], [strncpy], [strcat], [strncat] *)

Lemma store_is_copy (m : mem) (d s : Z) (b : Byte.byte) :
  m !! s = Some b -> is_copy m (<[d:=b]> m) d s 1.
Proof.
  intros Hb. split.
  - intros i Hi. assert (i = 0) as -> by lia. rewrite !Z.add_0_r.
    rewrite lookup_insert_eq. symmetry. exact Hb.
  - intros a Ha. apply lookup_insert_ne. lia.
Qed.

Lemma copy_string_spec (l : list Byte.byte) (fuel : nat) (m : mem) (d s : Z) :
  cstring m s l -> allocated m d (len l + 1) ->
  d <= s \/ s + len l + 1 <= d -> (length l < fuel)%nat ->
  exists m', copy_string fuel m d s = Some (m', d + len l + 1, s + len l + 1) /\
             is_copy m m' d s (len l + 1).
Proof.
  unfold len. revert fuel m d s.
  induction l as [|x l IH]; intros fuel m d s Hs Ha Hds Hf;
    (destruct fuel as [|fuel]; [simpl in Hf; lia|]); cbn [copy_string cstring length] in *.
  - unfold load. rewrite Hs. cbn [mbind option_bind].
    rewrite store_Some by (specialize (Ha 0); rewrite Z.add_0_r in Ha; apply Ha; lia).
    cbn [mbind option_bind]. rewrite decide_True by reflexivity.
    exists (<[d:=NUL]> m). split; [tuple_eq|].
    apply store_is_copy, Hs.
  - destruct Hs as (Hx & Hnz & Hs). unfold load. rewrite Hx. cbn [mbind option_bind].
    rewrite store_Some by (specialize (Ha 0); rewrite Z.add_0_r in Ha; apply Ha; lia).
    cbn [mbind option_bind]. rewrite decide_False by exact Hnz.
    pose proof (cstring_allocated _ _ _ Hs) as Hsa. unfold len in Hsa.
    destruct (IH fuel (<[d:=x]> m) (d + 1) (s + 1)) as (m' & E & C).
    + eapply cstring_ext; [|exact Hs]. intros i Hi. apply lookup_insert_ne.
      unfold len in Hi. lia.
    + intros i Hi. destruct (decide (d = d + 1 + i)) as [<-|Hne].
      * rewrite lookup_insert_eq. eauto.
      * rewrite lookup_insert_ne by exact Hne.
        replace (d + 1 + i) with (d + (1 + i)) by lia. apply Ha. lia.
    + lia.
    + lia.
    + exists m'. rewrite E. split; [tuple_eq|].
      replace (Z.of_nat (S (length l)) + 1) with (1 + (Z.of_nat (length l) + 1)) by lia.
      eapply is_copy_forward; [lia|lia| |apply store_is_copy, Hx|exact C]. lia.
Qed.

Lemma is_copy_cstring (m m' : mem) (d s : Z) (l : list Byte.byte) :
  is_copy m m' d s (len l + 1) -> cstring m s l -> cstring m' d l.
Proof.
  intros [Hin _]. rewrite !cstring_lookup. unfold len in *. intros (Hl & Hend). split.
  - intros i b Hi. rewrite Hin; [apply Hl, Hi|]. apply lookup_lt_Some in Hi. lia.
  - rewrite Hin by lia. exact Hend.
Qed.

(** X8.  [strcpy(dest, src)] of a terminated string into an allocated
    range that does not meet it: [dest] is returned and holds the same
    string, terminator included; the source and every byte outside the
    [strlen(src) + 1] bytes written are as before. *)
Theorem strcpy_copies_string (m : mem) (dest src : Z) (l : list Byte.byte)
    (fuel : nat) :
  cstring m src l -> allocated m dest (len l + 1) ->
  dest + len l + 1 <= src \/ src + len l + 1 <= dest ->
  (length l < fuel)%nat ->
  exists m',
    strcpy fuel m dest src = Some (m', dest) /\
    cstring m' dest l /\ cstring m' src l /\
    unchanged_outside m m' dest (len l + 1).
Proof.
  intros Hs Ha Hdis Hf.
  destruct (copy_string_spec l fuel m dest src Hs Ha) as (m' & E & C); [lia|exact Hf|].
  exists m'. unfold strcpy. rewrite E. split; [reflexivity|]. split; [|split].
  - eapply is_copy_cstring; eassumption.
  - eapply cstring_ext; [|exact Hs]. intros i Hi. apply C. lia.
  - exact (proj2 C).
Qed.

Lemma is_copy_domain (m m' : mem) (d s n : Z) :
  is_copy m m' d s n -> allocated m s n -> allocated m d n ->
  forall a, is_Some (m' !! a) <-> is_Some (m !! a).
Proof.
  intros [Hin Hout] Hs Hd a. destruct (decide (d <= a < d + n)) as [Hr|Hr].
  - replace a with (d + (a - d)) by lia. rewrite Hin by lia. split; intros _.
    + apply Hd. lia.
    + apply Hs. lia.
  - rewrite Hout by exact Hr. reflexivity.
Qed.

Lemma copy_bounded_long (k : nat) (m : mem) (d s : Z) :
  (forall i, 0 <= i < Z.of_nat k ->
     exists b, m !! (s + i) = Some b /\ b <> NUL) ->
  allocated m d (Z.of_nat k) ->
  d <= s \/ s + Z.of_nat k <= d ->
  exists m', copy_bounded k m d s = Some (m', d + Z.of_nat k, s + Z.of_nat k, O) /\
             is_copy m m' d s (Z.of_nat k).
Proof.
  revert m d s. induction k as [|k IH]; intros m d s Hs Ha Hds.
  - exists m. cbn [copy_bounded]. rewrite !Z.add_0_r. split; [reflexivity|].
    apply is_copy_empty. simpl. lia.
  - cbn [copy_bounded]. destruct (Hs 0) as (x & Hx & Hnz); [lia|].
    rewrite Z.add_0_r in Hx. unfold load. rewrite Hx. cbn [mbind option_bind].
    rewrite store_Some by (specialize (Ha 0); rewrite Z.add_0_r in Ha; apply Ha; lia).
    cbn [mbind option_bind]. rewrite decide_False by exact Hnz.
    destruct (IH (<[d:=x]> m) (d + 1) (s + 1)) as (m' & E & C).
    + intros i Hi. destruct (Hs (1 + i)) as (b & Hb & Hbn); [lia|].
      exists b. split; [|exact Hbn]. rewrite lookup_insert_ne by lia.
      replace (s + 1 + i) with (s + (1 + i)) by lia. exact Hb.
    + intros i Hi. destruct (decide (d = d + 1 + i)) as [<-|Hne].
      * rewrite lookup_insert_eq. eauto.
      * rewrite lookup_insert_ne by exact Hne.
        replace (d + 1 + i) with (d + (1 + i)) by lia. apply Ha. lia.
    + lia.
    + exists m'. rewrite E. split; [tuple_eq|].
      replace (Z.of_nat (S k)) with (1 + Z.of_nat k) by lia.
      eapply is_copy_forward; [lia|lia| |apply store_is_copy, Hx|exact C]. lia.
Qed.

Lemma copy_bounded_short (l : list Byte.byte) (k : nat) (m : mem) (d s : Z) :
  cstring m s l -> (length l < k)%nat -> allocated m d (len l + 1) ->
  d <= s \/ s + len l + 1 <= d ->
  exists m',
    copy_bounded k m d s
      = Some (m', d + len l + 1, s + len l + 1, (k - length l)%nat) /\
    is_copy m m' d s (len l + 1).
Proof.
  unfold len. revert k m d s.
  induction l as [|x l IH]; intros k m d s Hs Hk Ha Hds;
    (destruct k as [|k]; [simpl in Hk; lia|]); cbn [copy_bounded cstring length] in *.
  - unfold load. rewrite Hs. cbn [mbind option_bind].
    rewrite store_Some by (specialize (Ha 0); rewrite Z.add_0_r in Ha; apply Ha; lia).
    cbn [mbind option_bind]. rewrite decide_True by reflexivity.
    exists (<[d:=NUL]> m). split; [tuple_eq|].
    apply store_is_copy, Hs.
  - destruct Hs as (Hx & Hnz & Hs). unfold load. rewrite Hx. cbn [mbind option_bind].
    rewrite store_Some by (specialize (Ha 0); rewrite Z.add_0_r in Ha; apply Ha; lia).
    cbn [mbind option_bind]. rewrite decide_False by exact Hnz.
    destruct (IH k (<[d:=x]> m) (d + 1) (s + 1)) as (m' & E & C).
    + eapply cstring_ext; [|exact Hs]. intros i Hi. apply lookup_insert_ne.
      unfold len in Hi. lia.
    + lia.
    + intros i Hi. destruct (decide (d = d + 1 + i)) as [<-|Hne].
      * rewrite lookup_insert_eq. eauto.
      * rewrite lookup_insert_ne by exact Hne.
        replace (d + 1 + i) with (d + (1 + i)) by lia. apply Ha. lia.
    + lia.
    + exists m'. rewrite E. split; [tuple_eq|].
      replace (Z.of_nat (S (length l)) + 1) with (1 + (Z.of_nat (length l) + 1)) by lia.
      eapply is_copy_forward; [lia|lia| |apply store_is_copy, Hx|exact C]. lia.
Qed.

Lemma cstring_prefix (m : mem) (s : Z) (l : list Byte.byte) (i : Z) :
  cstring m s l -> 0 <= i < len l ->
  exists b, l !! Z.to_nat i = Some b /\ m !! (s + i) = Some b /\ b <> NUL.
Proof.
  rewrite cstring_lookup. unfold len. intros (Hl & _) Hi.
  destruct (lookup_lt_is_Some_2 l (Z.to_nat i)) as (b & Hb); [lia|].
  exists b. split; [exact Hb|]. apply Hl in Hb. rewrite Z2Nat.id in Hb by lia. exact Hb.
Qed.

(** X9.  [strncpy(dest, src, n)] when the source string has [n] bytes or
    more before its terminator: exactly [dest[0..n)] is written, with the
    first [n] bytes of the string, none of which is zero, so the result
    carries no terminator. *)
Theorem strncpy_long_source (m : mem) (dest src n : Z) (l : list Byte.byte) :
  cstring m src l -> is_size_t n -> n <= len l -> allocated m dest n ->
  dest + n <= src \/ src + len l + 1 <= dest ->
  exists m',
    strncpy m dest src n = Some (m', dest) /\
    (forall i, 0 <= i < n ->
       exists b, l !! Z.to_nat i = Some b /\ m' !! (dest + i) = Some b /\
                 b <> NUL) /\
    unchanged_outside m m' dest n.
Proof.
  intros Hs [Hn _] Hl Ha Hdis.
  destruct (copy_bounded_long (Z.to_nat n) m dest src) as (m' & E & C).
  - rewrite Z2Nat.id by exact Hn. intros i Hi.
    destruct (cstring_prefix m src l i Hs) as (b & _ & Hb); [lia|]. eauto.
  - rewrite Z2Nat.id by exact Hn. exact Ha.
  - rewrite Z2Nat.id by exact Hn. unfold len in *. lia.
  - rewrite Z2Nat.id in C by exact Hn.
    exists m'. unfold strncpy. rewrite E. cbn [mbind option_bind fill_loop].
    split; [reflexivity|]. split; [|exact (proj2 C)].
    intros i Hi. destruct (cstring_prefix m src l i Hs) as (b & Hb & Hm & Hnz); [lia|].
    exists b. split; [exact Hb|]. split; [|exact Hnz].
    rewrite (proj1 C) by exact Hi. exact Hm.
Qed.

Lemma strncpy_short_steps (m : mem) (dest src n : Z) (l : list Byte.byte) :
  cstring m src l -> 0 <= n -> len l < n -> allocated m dest (len l + 1) ->
  dest <= src \/ src + len l + 1 <= dest ->
  exists m1,
    is_copy m m1 dest src (len l + 1) /\
    strncpy m dest src n =
      ('(m2, _) ← fill_loop (Z.to_nat (n - len l)) m1 (dest + len l + 1) NUL;
       Some (m2, dest)).
Proof.
  intros Hs Hn Hl Ha Hdis.
  destruct (copy_bounded_short l (Z.to_nat n) m dest src Hs) as (m1 & E & C);
    [unfold len in *; lia|exact Ha|exact Hdis|].
  exists m1. split; [exact C|]. unfold strncpy. rewrite E. cbn [mbind option_bind].
  replace (Z.to_nat n - length l)%nat with (Z.to_nat (n - len l))
    by (unfold len; lia).
  reflexivity.
Qed.

(** X10.  [strncpy(dest, src, n)] when the source string is shorter than
    [n]: the string and its terminator are copied and [n - strlen(src)]
    further zero bytes are written after the terminator, so that
    [n + 1] bytes are written in all and the byte at [dest + n], one past
    the [n] bytes of the destination, is set to zero. *)
Theorem strncpy_short_source_writes_n_plus_1 (m : mem) (dest src n : Z)
    (l : list Byte.byte) :
  cstring m src l -> is_size_t n -> len l < n -> allocated m dest (n + 1) ->
  dest + n + 1 <= src \/ src + len l + 1 <= dest ->
  exists m',
    strncpy m dest src n = Some (m', dest) /\
    cstring m' dest l /\
    (forall i, len l <= i <= n -> m' !! (dest + i) = Some NUL) /\
    unchanged_outside m m' dest (n + 1).
Proof.
  intros Hs [Hn _] Hl Ha Hdis.
  assert (Hl0 : 0 <= len l) by (unfold len; lia).
  destruct (strncpy_short_steps m dest src n l Hs Hn Hl) as (m1 & C & E);
    [eapply allocated_weaken; [exact Ha|lia|lia]|lia|].
  pose proof (cstring_allocated _ _ _ Hs) as Hsa.
  assert (Hdom := is_copy_domain _ _ _ _ _ C Hsa
                    ltac:(eapply allocated_weaken; [exact Ha|lia|lia])).
  destruct (fill_loop_spec (Z.to_nat (n - len l)) m1 (dest + len l + 1) NUL)
    as (m2 & E2 & Hin & Hout).
  { rewrite Z2Nat.id by lia. intros i Hi. apply Hdom.
    replace (dest + len l + 1 + i) with (dest + (len l + 1 + i)) by lia.
    apply Ha. lia. }
  rewrite Z2Nat.id in Hin, Hout by lia.
  exists m2. rewrite E, E2. split; [reflexivity|].
  pose proof (is_copy_cstring _ _ _ _ _ C Hs) as Hd1.
  split; [|split].
  - eapply cstring_ext; [|exact Hd1]. intros i Hi. apply Hout. lia.
  - intros i Hi. destruct (decide (i = len l)) as [->|Hne].
    + rewrite Hout by lia. apply cstring_lookup in Hd1. apply Hd1.
    + replace (dest + i) with (dest + len l + 1 + (i - len l - 1)) by lia.
      apply Hin. lia.
  - intros a Hna. rewrite Hout by lia. apply C. lia.
Qed.

(** X11.  [strncpy(dest, src, n)] into a buffer of exactly [n] bytes, from
    a string shorter than [n]: the byte at [dest + n] is not allocated
    and the call has no defined result. *)
Theorem strncpy_short_source_overruns (m : mem) (dest src n : Z)
    (l : list Byte.byte) :
  cstring m src l -> is_size_t n -> len l < n -> allocated m dest n ->
  m !! (dest + n) = None ->
  dest + n + 1 <= src \/ src + len l + 1 <= dest ->
  strncpy m dest src n = None.
Proof.
  intros Hs [Hn _] Hl Ha Hnone Hdis.
  assert (Hl0 : 0 <= len l) by (unfold len; lia).
  destruct (strncpy_short_steps m dest src n l Hs Hn Hl) as (m1 & C & E);
    [eapply allocated_weaken; [exact Ha|lia|lia]|lia|].
  rewrite E.
  rewrite (fill_loop_unallocated _ m1 _ NUL (n - len l - 1)); [reflexivity|lia|].
  replace (dest + len l + 1 + (n - len l - 1)) with (dest + n) by lia.
  rewrite (proj2 C) by lia. exact Hnone.
Qed.

Lemma skip_string_spec (l : list Byte.byte) (fuel : nat) (m : mem) (d : Z) :
  cstring m d l -> (length l < fuel)%nat ->
  skip_string fuel m d = Some (d + len l).
Proof.
  unfold len. revert fuel d. induction l as [|x l IH]; intros fuel d Hs Hf;
    (destruct fuel as [|fuel]; [simpl in Hf; lia|]); cbn [skip_string cstring length] in *.
  - unfold load. rewrite Hs. cbn [mbind option_bind]. rewrite decide_True by reflexivity.
    f_equal. lia.
  - destruct Hs as (Hx & Hnz & Hs). unfold load. rewrite Hx.
    cbn [mbind option_bind]. rewrite decide_False by exact Hnz.
    rewrite (IH fuel (d + 1) Hs) by lia. f_equal. lia.
Qed.

Lemma cstring_append (m m' : mem) (dest : Z) (l1 l2 : list Byte.byte) :
  cstring m dest l1 -> cstring m' (dest + len l1) l2 ->
  unchanged_outside m m' (dest + len l1) (len l2 + 1) ->
  cstring m' dest (l1 ++ l2).
Proof.
  intros H1 H2 Hout. apply cstring_app; [|exact H2].
  apply cstring_lookup in H1. destruct H1 as (Hl & _).
  intros i b Hi. rewrite Hout; [apply Hl, Hi|].
  apply lookup_lt_Some in Hi. unfold len. lia.
Qed.

(** X12.  [strcat(dest, src)] of two terminated strings, with room for the
    result after [dest] and the source outside that room: [dest] is
    returned and holds the bytes of the first string, then those of the
    second, then the terminator; the source is as before, and only the
    [strlen(src) + 1] bytes from the old terminator of [dest] on are
    written. *)
Theorem strcat_appends (m : mem) (dest src : Z) (l1 l2 : list Byte.byte)
    (fuel : nat) :
  cstring m dest l1 -> cstring m src l2 ->
  allocated m dest (len l1 + len l2 + 1) ->
  dest + len l1 + len l2 + 1 <= src \/ src + len l2 + 1 <= dest ->
  (length l1 < fuel)%nat -> (length l2 < fuel)%nat ->
  exists m',
    strcat fuel m dest src = Some (m', dest) /\
    cstring m' dest (l1 ++ l2) /\ cstring m' src l2 /\
    unchanged_outside m m' (dest + len l1) (len l2 + 1).
Proof.
  intros H1 H2 Ha Hdis Hf1 Hf2.
  assert (Hl1 : 0 <= len l1) by (unfold len; lia).
  assert (Hl2 : 0 <= len l2) by (unfold len; lia).
  destruct (copy_string_spec l2 fuel m (dest + len l1) src H2) as (m' & E & C);
    [eapply allocated_weaken; [exact Ha|lia|lia]|lia|exact Hf2|].
  exists m'. unfold strcat. rewrite (skip_string_spec l1) by assumption.
  cbn [mbind option_bind]. rewrite E. split; [reflexivity|].
  split; [|split; [|exact (proj2 C)]].
  - eapply cstring_append; [exact H1| |exact (proj2 C)].
    eapply is_copy_cstring; eassumption.
  - eapply cstring_ext; [|exact H2]. intros i Hi. apply C. lia.
Qed.

(** X13.  [strncat(dest, src, n)]: [dest] is returned and holds the bytes
    of the first string, then the first [n] bytes of the second (all of
    it when it is shorter), then a terminator; only the bytes from the
    old terminator of [dest] on are written. *)
Theorem strncat_appends_prefix (m : mem) (dest src n : Z)
    (l1 l2 : list Byte.byte) (fuel : nat) :
  let t := take (Z.to_nat n) l2 in
  cstring m dest l1 -> cstring m src l2 -> is_size_t n ->
  allocated m dest (len l1 + len t + 1) ->
  dest + len l1 + len t + 1 <= src \/ src + len l2 + 1 <= dest ->
  (length l1 < fuel)%nat ->
  exists m',
    strncat fuel m dest src n = Some (m', dest) /\
    cstring m' dest (l1 ++ t) /\
    unchanged_outside m m' (dest + len l1) (len t + 1).
Proof.
  intros t H1 H2 [Hn _] Ha Hdis Hf1.
  assert (Hl1 : 0 <= len l1) by (unfold len; lia).
  assert (Hl2 : 0 <= len l2) by (unfold len; lia).
  unfold strncat. rewrite (skip_string_spec l1) by assumption.
  cbn [mbind option_bind].
  destruct (decide (length l2 < Z.to_nat n)%nat) as [Hshort|Hlong].
  - assert (Ht : t = l2) by (apply take_ge; lia). rewrite Ht in *.
    destruct (copy_bounded_short l2 (Z.to_nat n) m (dest + len l1) src H2 Hshort)
      as (m' & E & C);
      [eapply allocated_weaken; [exact Ha|lia|lia]|lia|].
    exists m'. rewrite E. cbn [mbind option_bind].
    rewrite decide_False by lia. split; [reflexivity|].
    split; [|exact (proj2 C)].
    eapply cstring_append; [exact H1| |exact (proj2 C)].
    eapply is_copy_cstring; eassumption.
  - assert (Ht : len t = n).
    { unfold len, t. rewrite length_take. lia. }
    rewrite Ht in *.
    destruct (copy_bounded_long (Z.to_nat n) m (dest + len l1) src) as (m1 & E & C).
    { rewrite Z2Nat.id by exact Hn. intros i Hi.
      destruct (cstring_prefix m src l2 i H2) as (b & _ & Hb); [unfold len; lia|]. eauto. }
    { rewrite Z2Nat.id by exact Hn. eapply allocated_weaken; [exact Ha|lia|lia]. }
    { rewrite Z2Nat.id by exact Hn. unfold len in *. lia. }
    rewrite Z2Nat.id in E, C by exact Hn.
    rewrite E. cbn [mbind option_bind]. rewrite decide_True by reflexivity.
    assert (Hend : is_Some (m1 !! (dest + len l1 + n))).
    { rewrite (proj2 C) by lia.
      replace (dest + len l1 + n) with (dest + (len l1 + n)) by lia. apply Ha. lia. }
    rewrite (store_Some _ _ _ Hend). cbn [mbind option_bind].
    exists (<[dest + len l1 + n:=NUL]> m1). split; [reflexivity|].
    assert (Hout : unchanged_outside m (<[dest + len l1 + n:=NUL]> m1)
                     (dest + len l1) (n + 1)).
    { intros a Hna. rewrite lookup_insert_ne by lia. apply C. lia. }
    split; [|exact Hout].
    eapply cstring_append; [exact H1| |rewrite Ht; exact Hout].
    apply cstring_lookup. split.
    + intros i b Hi. unfold t in Hi. apply lookup_take_Some in Hi.
      destruct Hi as [Hi Hik].
      rewrite lookup_insert_ne by lia.
      rewrite (proj1 C) by lia.
      apply cstring_lookup in H2. apply H2, Hi.
    + rewrite Ht. apply lookup_insert_eq.
Qed.

(** *** [strcmp], [strncmp], [strchr], [strrchr] *)

Lemma u8_NUL : u8 NUL = 0.
Proof. reflexivity. Qed.

Lemma u8_zero (b : Byte.byte) : u8 b = 0 -> b = NUL.
Proof. intros H. apply u8_inj. rewrite H. reflexivity. Qed.

Lemma cstring_nonzero (m : mem) (s : Z) (l : list Byte.byte) :
  cstring m s l -> Forall (fun b => b <> NUL) l.
Proof.
  revert s. induction l as [|x l IH]; intros s H; [constructor|].
  destruct H as (_ & Hnz & H). constructor; [exact Hnz|]. eapply IH, H.
Qed.

Lemma compare_strings_swap (l1 l2 : list Byte.byte) :
  compare_strings l2 l1 = - compare_strings l1 l2.
Proof.
  revert l2. induction l1 as [|x l1 IH]; intros [|y l2]; cbn [compare_strings];
    try lia.
  destruct (decide (x = y)) as [->|Hne].
  - rewrite decide_True by reflexivity. apply IH.
  - rewrite decide_False by congruence. lia.
Qed.

Lemma compare_strings_zero (l1 l2 : list Byte.byte) :
  Forall (fun b => b <> NUL) l1 -> Forall (fun b => b <> NUL) l2 ->
  compare_strings l1 l2 = 0 <-> l1 = l2.
Proof.
  intros H1. revert l2. induction H1 as [|x l1 Hx H1 IH]; intros l2 H2;
    destruct H2 as [|y l2 Hy H2]; cbn [compare_strings].
  - tauto.
  - split; [|discriminate]. intros H. exfalso. apply Hy, u8_zero. lia.
  - split; [|discriminate]. intros H. exfalso. apply Hx, u8_zero. lia.
  - destruct (decide (x = y)) as [->|Hne].
    + rewrite (IH l2 H2). split; [intros ->; reflexivity|intros [= ->]; reflexivity].
    + split; [|intros [= -> _]; contradiction].
      intros H. exfalso. apply Hne, u8_inj. lia.
Qed.

Lemma strcmp_spec (l1 l2 : list Byte.byte) (fuel : nat) (m : mem) (a b : Z) :
  cstring m a l1 -> cstring m b l2 -> (length l1 < fuel)%nat ->
  strcmp fuel m a b = Some (compare_strings l1 l2).
Proof.
  revert l2 fuel a b. induction l1 as [|x l1 IH]; intros l2 fuel a b H1 H2 Hf;
    (destruct fuel as [|fuel]; [simpl in Hf; lia|]);
    destruct l2 as [|y l2]; cbn [strcmp cstring compare_strings length] in *;
    unfold load.
  - rewrite H1, H2. cbn [mbind option_bind].
    rewrite bool_decide_eq_false_2 by tauto. reflexivity.
  - destruct H2 as (Hy & _). rewrite H1, Hy. cbn [mbind option_bind].
    rewrite bool_decide_eq_false_2 by tauto. cbn [andb]. rewrite u8_NUL. reflexivity.
  - destruct H1 as (Hx & Hnz & _). rewrite Hx, H2. cbn [mbind option_bind].
    rewrite (bool_decide_eq_false_2 (x = NUL)) by exact Hnz.
    rewrite andb_false_r, u8_NUL. f_equal. lia.
  - destruct H1 as (Hx & Hnz & H1). destruct H2 as (Hy & _ & H2).
    rewrite Hx, Hy. cbn [mbind option_bind].
    rewrite bool_decide_eq_true_2 by exact Hnz. cbn [andb].
    destruct (decide (x = y)) as [->|Hne].
    + rewrite bool_decide_eq_true_2 by reflexivity. apply IH; [assumption|assumption|lia].
    + rewrite bool_decide_eq_false_2 by exact Hne. reflexivity.
Qed.

(** X14.  [strcmp(a, b)] of two terminated strings is the difference, as
    [unsigned char], of the first pair of bytes that differ, the
    terminator included; it is 0 exactly when the strings are equal, and
    exchanging the arguments negates it. *)
Theorem strcmp_orders_strings (m : mem) (a b : Z) (l1 l2 : list Byte.byte)
    (fuel : nat) :
  cstring m a l1 -> cstring m b l2 ->
  (length l1 < fuel)%nat -> (length l2 < fuel)%nat ->
  exists r,
    strcmp fuel m a b = Some r /\ strcmp fuel m b a = Some (- r) /\
    r = compare_strings l1 l2 /\ (r = 0 <-> l1 = l2).
Proof.
  intros H1 H2 Hf1 Hf2. exists (compare_strings l1 l2).
  split; [apply strcmp_spec; assumption|]. split.
  - rewrite <- compare_strings_swap. apply strcmp_spec; assumption.
  - split; [reflexivity|].
    apply compare_strings_zero; eapply cstring_nonzero; eassumption.
Qed.

Lemma strncmp_loop_spec (k : nat) (l1 l2 : list Byte.byte) (m : mem) (a b : Z) :
  cstring m a l1 -> cstring m b l2 ->
  strncmp_loop k m a b = Some (compare_strings (take k l1) (take k l2)).
Proof.
  revert l1 l2 a b. induction k as [|k IH]; intros l1 l2 a b H1 H2.
  - rewrite !take_0. reflexivity.
  - destruct l1 as [|x l1], l2 as [|y l2];
      cbn [strncmp_loop cstring compare_strings take] in *; unfold load.
    + rewrite H1, H2. cbn [mbind option_bind].
      rewrite bool_decide_eq_false_2 by tauto. reflexivity.
    + destruct H2 as (Hy & _). rewrite H1, Hy. cbn [mbind option_bind].
      rewrite bool_decide_eq_false_2 by tauto. cbn [andb]. rewrite u8_NUL. reflexivity.
    + destruct H1 as (Hx & Hnz & _). rewrite Hx, H2. cbn [mbind option_bind].
      rewrite (bool_decide_eq_false_2 (x = NUL)) by exact Hnz.
      rewrite andb_false_r, u8_NUL. f_equal. lia.
    + destruct H1 as (Hx & Hnz & H1). destruct H2 as (Hy & _ & H2).
      rewrite Hx, Hy. cbn [mbind option_bind].
      rewrite bool_decide_eq_true_2 by exact Hnz. cbn [andb].
      destruct (decide (x = y)) as [->|Hne].
      * rewrite bool_decide_eq_true_2 by reflexivity. apply IH; assumption.
      * rewrite bool_decide_eq_false_2 by exact Hne. reflexivity.
Qed.

(** X15.  [strncmp(a, b, n)] of two terminated strings compares their
    first [n] bytes as [strcmp] compares whole strings: the result is 0
    exactly when the strings agree on their first [n] bytes (entirely,
    when they are shorter). *)
Theorem strncmp_compares_prefixes (m : mem) (a b n : Z)
    (l1 l2 : list Byte.byte) :
  cstring m a l1 -> cstring m b l2 -> is_size_t n ->
  exists r,
    strncmp m a b n = Some r /\
    r = compare_strings (take (Z.to_nat n) l1) (take (Z.to_nat n) l2) /\
    (r = 0 <-> take (Z.to_nat n) l1 = take (Z.to_nat n) l2).
Proof.
  intros H1 H2 _. eexists. split; [apply strncmp_loop_spec; eassumption|].
  split; [reflexivity|].
  apply compare_strings_zero; apply Forall_take; eapply cstring_nonzero; eassumption.
Qed.

(** X16.  [strchr(s, c)] on a terminated string returns the address of the
    first byte equal to [(char)c]; when there is none it returns the
    address of the terminator if [(char)c] is zero and the null pointer
    otherwise. *)
Theorem strchr_finds_first (m : mem) (s c : Z) (l : list Byte.byte)
    (fuel : nat) :
  cstring m s l -> (length l < fuel)%nat ->
  strchr fuel m s c =
    Some match first_index (byte_of_int c) l with
         | Some i => s + Z.of_nat i
         | None => if decide (byte_of_int c = NUL) then s + len l else NULL
         end.
Proof.
  unfold len. revert s fuel. induction l as [|x l IH]; intros s fuel Hs Hf;
    (destruct fuel as [|fuel]; [simpl in Hf; lia|]);
    cbn [strchr cstring first_index length] in *; unfold load.
  - rewrite Hs. cbn [mbind option_bind]. rewrite decide_False by tauto.
    rewrite Z.add_0_r. reflexivity.
  - destruct Hs as (Hx & Hnz & Hs). rewrite Hx. cbn [mbind option_bind].
    rewrite decide_True by exact Hnz.
    destruct (decide (x = byte_of_int c)) as [_|Hne].
    + rewrite Z.add_0_r. reflexivity.
    + rewrite (IH (s + 1) fuel Hs) by lia. f_equal.
      destruct (first_index (byte_of_int c) l) as [i|]; cbn [fmap option_fmap option_map].
      * lia.
      * destruct (decide (byte_of_int c = NUL)); [lia|reflexivity].
Qed.

Lemma strrchr_loop_spec (l : list Byte.byte) (fuel : nat) (m : mem)
    (s c last : Z) :
  cstring m s l -> (length l < fuel)%nat ->
  strrchr_loop fuel m s c last =
    Some match last_index (byte_of_int c) l with
         | Some i => s + Z.of_nat i
         | None => if decide (byte_of_int c = NUL) then s + len l else last
         end.
Proof.
  unfold len. revert s last fuel. induction l as [|x l IH]; intros s last fuel Hs Hf;
    (destruct fuel as [|fuel]; [simpl in Hf; lia|]);
    cbn [strrchr_loop cstring last_index length] in *; unfold load.
  - rewrite Hs. cbn [mbind option_bind]. rewrite (decide_False (P := NUL ≠ NUL)) by tauto.
    rewrite Z.add_0_r.
    destruct (decide (NUL = byte_of_int c)) as [E|E];
      destruct (decide (byte_of_int c = NUL)) as [E'|E']; congruence.
  - destruct Hs as (Hx & Hnz & Hs). rewrite Hx. cbn [mbind option_bind].
    rewrite (decide_True (P := x ≠ NUL)) by exact Hnz.
    rewrite (IH (s + 1) _ fuel Hs) by lia. f_equal.
    destruct (last_index (byte_of_int c) l) as [i|]; [lia|].
    destruct (decide (x = byte_of_int c)) as [E|E].
    + rewrite decide_False by congruence. lia.
    + destruct (decide (byte_of_int c = NUL)); [lia|reflexivity].
Qed.

(** X17.  [strrchr(s, c)] on a terminated string returns the address of
    the last byte equal to [(char)c]; when there is none it returns the
    address of the terminator if [(char)c] is zero and the null pointer
    otherwise. *)
Theorem strrchr_finds_last (m : mem) (s c : Z) (l : list Byte.byte)
    (fuel : nat) :
  cstring m s l -> (length l < fuel)%nat ->
  strrchr fuel m s c =
    Some match last_index (byte_of_int c) l with
         | Some i => s + Z.of_nat i
         | None => if decide (byte_of_int c = NUL) then s + len l else NULL
         end.
Proof. intros Hs Hf. unfold strrchr. apply strrchr_loop_spec; assumption. Qed.

(** ** Character classification *)

Lemma isupper_cases (c : Z) :
  (65 <= c <= 90 /\ isupper c = 1) \/ (~ 65 <= c <= 90 /\ isupper c = 0).
Proof.
  unfold isupper.
  destruct (Z.leb_spec 65 c), (Z.leb_spec c 90); cbn; (left; split; [lia|reflexivity]) || (right; split; [lia|reflexivity]).
Qed.

Lemma islower_cases (c : Z) :
  (97 <= c <= 122 /\ islower c = 1) \/ (~ 97 <= c <= 122 /\ islower c = 0).
Proof.
  unfold islower.
  destruct (Z.leb_spec 97 c), (Z.leb_spec c 122); cbn; (left; split; [lia|reflexivity]) || (right; split; [lia|reflexivity]).
Qed.

Lemma isdigit_cases (c : Z) :
  (48 <= c <= 57 /\ isdigit c = 1) \/ (~ 48 <= c <= 57 /\ isdigit c = 0).
Proof.
  unfold isdigit.
  destruct (Z.leb_spec 48 c), (Z.leb_spec c 57); cbn; (left; split; [lia|reflexivity]) || (right; split; [lia|reflexivity]).
Qed.

Lemma isalpha_cases (c : Z) :
  ((97 <= c <= 122 \/ 65 <= c <= 90) /\ isalpha c = 1) \/
  (~ (97 <= c <= 122 \/ 65 <= c <= 90) /\ isalpha c = 0).
Proof.
  unfold isalpha.
  destruct (Z.leb_spec 97 c), (Z.leb_spec c 122), (Z.leb_spec 65 c), (Z.leb_spec c 90);
    cbn; (left; split; [lia|reflexivity]) || (right; split; [lia|reflexivity]).
Qed.

Lemma isspace_cases (c : Z) :
  ((c = 32 \/ 9 <= c <= 13) /\ isspace c = 1) \/
  (~ (c = 32 \/ 9 <= c <= 13) /\ isspace c = 0).
Proof.
  unfold isspace.
  destruct (Z.eqb_spec c 32), (Z.eqb_spec c 9), (Z.eqb_spec c 10), (Z.eqb_spec c 13),
    (Z.eqb_spec c 11), (Z.eqb_spec c 12);
    cbn; (left; split; [lia|reflexivity]) || (right; split; [lia|reflexivity]).
Qed.

Lemma isalnum_cases (c : Z) :
  ((97 <= c <= 122 \/ 65 <= c <= 90 \/ 48 <= c <= 57) /\ isalnum c = 1) \/
  (~ (97 <= c <= 122 \/ 65 <= c <= 90 \/ 48 <= c <= 57) /\ isalnum c = 0).
Proof.
  unfold isalnum.
  destruct (isalpha_cases c) as [[H1 ->]|[H1 ->]], (isdigit_cases c) as [[H2 ->]|[H2 ->]];
    cbn; (left; split; [lia|reflexivity]) || (right; split; [lia|reflexivity]).
Qed.

Lemma tolower_cases (c : Z) :
  (65 <= c <= 90 /\ tolower c = c + 32) \/ (~ 65 <= c <= 90 /\ tolower c = c).
Proof.
  unfold tolower. destruct (isupper_cases c) as [[H ->]|[H ->]]; cbn; [left|right]; split;
    solve [assumption | lia].
Qed.

Lemma toupper_cases (c : Z) :
  (97 <= c <= 122 /\ toupper c = c - 32) \/ (~ 97 <= c <= 122 /\ toupper c = c).
Proof.
  unfold toupper. destruct (islower_cases c) as [[H ->]|[H ->]]; cbn; [left|right]; split;
    solve [assumption | lia].
Qed.

(** X18.  [tolower] and [toupper] are inverse to each other on letters:
    an upper-case letter is mapped to a lower-case one and back to itself
    and conversely; a value that is no letter is left alone by both, and
    each conversion is idempotent. *)
Theorem case_conversion_round_trip (c : Z) :
  (isupper c = 1 -> islower (tolower c) = 1 /\ toupper (tolower c) = c) /\
  (islower c = 1 -> isupper (toupper c) = 1 /\ tolower (toupper c) = c) /\
  (isalpha c = 0 -> tolower c = c /\ toupper c = c) /\
  tolower (tolower c) = tolower c /\
  toupper (toupper c) = toupper c.
Proof.
  repeat split; intros;
    repeat match goal with
      | |- context [tolower ?c] => case_on tolower_cases c
      | |- context [toupper ?c] => case_on toupper_cases c
      | H : context [isupper ?c] |- _ => case_on isupper_cases c
      | H : context [islower ?c] |- _ => case_on islower_cases c
      | H : context [isalpha ?c] |- _ => case_on isalpha_cases c
      | |- context [isupper ?c] => case_on isupper_cases c
      | |- context [islower ?c] => case_on islower_cases c
      end;
    lia.
Qed.

(** X19.  The classes of the character tests: a letter is an upper-case or
    a lower-case letter; an alphanumeric is a letter or a digit; no value
    is in two of the classes upper, lower, digit and space; a negative
    value such as [EOF] and a value above 127 are in no class; and the
    case conversions keep a value in, or out of, the classes of letters,
    digits and spaces. *)
Theorem character_classes (c : Z) :
  (isalpha c = 1 <-> isupper c = 1 \/ islower c = 1) /\
  (isalnum c = 1 <-> isalpha c = 1 \/ isdigit c = 1) /\
  0 <= isupper c + islower c + isdigit c + isspace c <= 1 /\
  (c < 0 \/ 127 < c -> isalnum c = 0 /\ isspace c = 0) /\
  isalpha (tolower c) = isalpha c /\ isalpha (toupper c) = isalpha c /\
  isdigit (tolower c) = isdigit c /\ isdigit (toupper c) = isdigit c /\
  isspace (tolower c) = isspace c /\ isspace (toupper c) = isspace c.
Proof.
  repeat split; intros;
    repeat match goal with
      | |- context [tolower ?c] => case_on tolower_cases c
      | |- context [toupper ?c] => case_on toupper_cases c
      | |- context [isupper ?c] => case_on isupper_cases c
      | |- context [islower ?c] => case_on islower_cases c
      | |- context [isalpha ?c] => case_on isalpha_cases c
      | |- context [isdigit ?c] => case_on isdigit_cases c
      | |- context [isalnum ?c] => case_on isalnum_cases c
      | |- context [isspace ?c] => case_on isspace_cases c
      | H : context [isupper ?c] |- _ => case_on isupper_cases c
      | H : context [islower ?c] |- _ => case_on islower_cases c
      | H : context [isalpha ?c] |- _ => case_on isalpha_cases c
      | H : context [isdigit ?c] |- _ => case_on isdigit_cases c
      | H : context [isalnum ?c] |- _ => case_on isalnum_cases c
      | H : context [isspace ?c] |- _ => case_on isspace_cases c
      end;
    lia.
Qed.

(** ** [ffs], [ffsl], [ffsll] *)

Lemma lowest_set_bit_divides (i p : Z) :
  0 <= p -> i mod 2 ^ p = 0 -> i mod 2 ^ (p + 1) <> 0 -> lowest_set_bit i p.
Proof.
  intros Hp H0 H1. split.
  - apply Z.testbit_true; [exact Hp|].
    replace (p + 1) with (Z.succ p) in H1 by lia.
    rewrite Z.pow_succ_r in H1 by exact Hp.
    rewrite (Z.mul_comm 2), Z.rem_mul_r in H1 by lia.
    rewrite H0 in H1.
    pose proof (Z.mod_pos_bound (i / 2 ^ p) 2 ltac:(lia)).
    destruct (decide ((i / 2 ^ p) mod 2 = 0)) as [E|E]; [|lia].
    rewrite E in H1. lia.
  - intros j Hj. rewrite <- (Z.mod_pow2_bits_low i p j) by lia.
    rewrite H0. apply Z.bits_0.
Qed.

Lemma lowest_set_bit_unique (i p q : Z) :
  0 <= p -> 0 <= q -> lowest_set_bit i p -> lowest_set_bit i q -> p = q.
Proof.
  intros Hp Hq [Hp1 Hp2] [Hq1 Hq2].
  destruct (Z.lt_trichotomy p q) as [H|[H|H]]; [|exact H|].
  - rewrite Hq2 in Hp1 by lia. discriminate.
  - rewrite Hp2 in Hq1 by lia. discriminate.
Qed.

Lemma land_mask (i k : Z) (mask : Z) :
  0 <= k -> mask = Z.ones k -> Z.land i mask = i mod 2 ^ k.
Proof. intros Hk ->. apply Z.land_ones, Hk. Qed.

Lemma ffs_divides (i : Z) :
  - 2 ^ 31 <= i < 2 ^ 31 -> i <> 0 ->
  1 <= Portable.ffs i <= 32 /\
  i mod 2 ^ (Portable.ffs i - 1) = 0 /\
  i mod 2 ^ (Portable.ffs i - 1 + 1) <> 0.
Proof.
  intros Hr Hnz. unfold Portable.ffs.
  destruct (Z.eqb_spec i 0) as [|_]; [contradiction|].
  rewrite (land_mask i 16 0xFFFF) by (lia || reflexivity).
  destruct (Z.eqb_spec (i mod 2 ^ 16) 0) as [H16|H16].
  all: match goal with |- context [Z.land ?a 0xFF] =>
         rewrite (land_mask a 8 0xFF) by (lia || reflexivity);
         destruct (Z.eqb_spec (a mod 2 ^ 8) 0) as [H8|H8] end.
  all: match goal with |- context [Z.land ?a 0xF] =>
         rewrite (land_mask a 4 0xF) by (lia || reflexivity);
         destruct (Z.eqb_spec (a mod 2 ^ 4) 0) as [H4|H4] end.
  all: match goal with |- context [Z.land ?a 0x3] =>
         rewrite (land_mask a 2 0x3) by (lia || reflexivity);
         destruct (Z.eqb_spec (a mod 2 ^ 2) 0) as [H2|H2] end.
  all: match goal with |- context [Z.land ?a 0x1] =>
         rewrite (land_mask a 1 0x1) by (lia || reflexivity);
         destruct (Z.eqb_spec (a mod 2 ^ 1) 0) as [H1|H1] end.
  all: rewrite ?Z.shiftr_div_pow2 in * by lia.
  all: split; [lia|].
  all: repeat match goal with
         | |- context [2 ^ ?e] =>
             let v := eval vm_compute in (2 ^ e) in
             change (2 ^ e) with v in *
         | H : context [2 ^ ?e] |- _ =>
             let v := eval vm_compute in (2 ^ e) in
             change (2 ^ e) with v in *
         end.
  all: Z.div_mod_to_equations; lia.
Qed.

Lemma ffs_zero : Portable.ffs 0 = 0.
Proof. reflexivity. Qed.

Lemma ffs_nonzero (i : Z) :
  - 2 ^ 31 <= i < 2 ^ 31 -> i <> 0 ->
  1 <= Portable.ffs i <= 32 /\ lowest_set_bit i (Portable.ffs i - 1).
Proof.
  intros Hr Hnz. destruct (ffs_divides i Hr Hnz) as (Hp & H0 & H1).
  split; [exact Hp|]. apply lowest_set_bit_divides; [lia|assumption|assumption].
Qed.

(** X20.  [ffs(i)] on a 32-bit [int], by the search that is compiled when
    [__builtin_ffs] is absent: 0 for 0 and for no other value, and
    otherwise one plus the index of the lowest bit that is set. *)
Theorem ffs_is_lowest_set_bit (i : Z) :
  - 2 ^ 31 <= i < 2 ^ 31 ->
  (Portable.ffs i = 0 <-> i = 0) /\
  (i <> 0 ->
   1 <= Portable.ffs i <= 32 /\ lowest_set_bit i (Portable.ffs i - 1)).
Proof.
  intros Hr. split; [|apply ffs_nonzero, Hr].
  split; [|intros ->; reflexivity].
  intros H0. destruct (decide (i = 0)) as [|Hnz]; [assumption|].
  destruct (ffs_nonzero i Hr Hnz) as (Hp & _). lia.
Qed.

Lemma int_of_long_range (v : Z) : - 2 ^ 31 <= int_of_long v < 2 ^ 31.
Proof.
  unfold int_of_long. pose proof (Z.mod_pos_bound v (2 ^ 32) ltac:(lia)).
  destruct (Z.ltb_spec (v mod 2 ^ 32) (2 ^ 31)); lia.
Qed.

Lemma int_of_long_mod (v : Z) : int_of_long v mod 2 ^ 32 = v mod 2 ^ 32.
Proof.
  unfold int_of_long. destruct (Z.ltb_spec (v mod 2 ^ 32) (2 ^ 31)).
  - apply Z.mod_mod. lia.
  - replace (v mod 2 ^ 32 - 2 ^ 32) with (v mod 2 ^ 32 + (-1) * 2 ^ 32) by lia.
    rewrite Z.mod_add by lia. apply Z.mod_mod. lia.
Qed.

Lemma int_of_long_bits (v j : Z) :
  0 <= j < 32 -> Z.testbit (int_of_long v) j = Z.testbit v j.
Proof.
  intros Hj. rewrite <- (Z.mod_pow2_bits_low (int_of_long v) 32 j) by lia.
  rewrite int_of_long_mod. apply Z.mod_pow2_bits_low. lia.
Qed.

Lemma int_of_long_small (v : Z) : - 2 ^ 31 <= v < 2 ^ 31 -> int_of_long v = v.
Proof.
  intros Hv. unfold int_of_long.
  destruct (Z.ltb_spec (v mod 2 ^ 32) (2 ^ 31)) as [H|H];
    revert H; change (2 ^ 32) with 4294967296 in *; change (2 ^ 31) with 2147483648 in *;
    intros H; Z.div_mod_to_equations; lia.
Qed.

Lemma ffsll_spec (i : Z) :
  - 2 ^ 63 <= i < 2 ^ 63 -> i <> 0 ->
  1 <= Portable.ffsll i <= 64 /\ lowest_set_bit i (Portable.ffsll i - 1).
Proof.
  intros Hr Hnz. unfold Portable.ffsll.
  destruct (Z.eqb_spec i 0) as [|_]; [contradiction|].
  pose proof (ffs_nonzero (int_of_long i) (int_of_long_range i)) as Hlo.
  destruct (Z.eqb_spec (Portable.ffs (int_of_long i)) 0) as [E|E].
  - assert (E' : int_of_long i = 0).
    { destruct (decide (int_of_long i = 0)) as [|Hne]; [assumption|].
      destruct (Hlo Hne) as (Hp & _). lia. }
    clear E. rename E' into E.
    assert (Hm : i mod 2 ^ 32 = 0).
    { rewrite <- int_of_long_mod, E. reflexivity. }
    assert (Hh : - 2 ^ 31 <= Z.shiftr i 32 < 2 ^ 31 /\ Z.shiftr i 32 <> 0).
    { rewrite Z.shiftr_div_pow2 by lia. revert Hr Hm.
      change (2 ^ 63) with 9223372036854775808.
      change (2 ^ 32) with 4294967296. change (2 ^ 31) with 2147483648.
      intros Hr Hm. Z.div_mod_to_equations. lia. }
    destruct Hh as [Hh Hhnz]. rewrite (int_of_long_small _ Hh).
    destruct (ffs_nonzero (Z.shiftr i 32) Hh Hhnz) as (Hp & Hbit & Hlow).
    split; [lia|]. split.
    + rewrite Z.shiftr_spec in Hbit by lia.
      replace (32 + Portable.ffs (Z.shiftr i 32) - 1)
        with (Portable.ffs (Z.shiftr i 32) - 1 + 32) by lia.
      exact Hbit.
    + intros j Hj. destruct (decide (j < 32)) as [Hj32|Hj32].
      * rewrite <- (Z.mod_pow2_bits_low i 32 j) by lia. rewrite Hm. apply Z.bits_0.
      * specialize (Hlow (j - 32)). rewrite Z.shiftr_spec in Hlow by lia.
        replace (j - 32 + 32) with j in Hlow by lia. apply Hlow. lia.
  - assert (Hnz' : int_of_long i <> 0).
    { intros H0. apply E. rewrite H0. reflexivity. }
    destruct (Hlo Hnz') as (Hp & Hbit & Hlow). split; [lia|]. split.
    + rewrite <- int_of_long_bits by lia. exact Hbit.
    + intros j Hj. rewrite <- int_of_long_bits by lia. apply Hlow, Hj.
Qed.

(** X21.  [ffsll(i)] on a 64-bit [long long], and [ffsl(i)] on a 64-bit
    [long], by the expression that is compiled when the builtins are
    absent: 0 for 0 and for no other value, and otherwise one plus the
    index of the lowest bit that is set. *)
Theorem ffsll_is_lowest_set_bit (i : Z) :
  - 2 ^ 63 <= i < 2 ^ 63 ->
  Portable.ffsl i = Portable.ffsll i /\
  (Portable.ffsll i = 0 <-> i = 0) /\
  (i <> 0 ->
   1 <= Portable.ffsll i <= 64 /\ lowest_set_bit i (Portable.ffsll i - 1)).
Proof.
  intros Hr. split; [reflexivity|]. split.
  - split; [|intros ->; reflexivity].
    intros H0. destruct (decide (i = 0)) as [|Hnz]; [assumption|].
    destruct (ffsll_spec i Hr Hnz) as (Hp & _). lia.
  - apply ffsll_spec, Hr.
Qed.

(** ** Absolute values of integers *)

Lemma neg_signed_cases (w x : Z) :
  0 < w -> - 2 ^ (w - 1) <= x < 0 ->
  (x = - 2 ^ (w - 1) /\ neg_signed w x = None) \/
  (x <> - 2 ^ (w - 1) /\ neg_signed w x = Some (Z.abs x)).
Proof.
  intros Hw Hx. unfold neg_signed.
  destruct (Z.leb_spec (- 2 ^ (w - 1)) (- x)); [|lia].
  destruct (Z.ltb_spec (- x) (2 ^ (w - 1))); cbn [andb].
  - right. split; [lia|]. f_equal. lia.
  - left. split; [lia|reflexivity].
Qed.

(** X22.  [abs], [labs] and [llabs] return the absolute value of every
    argument but the least value of the type, where the negation
    overflows and the call has no defined result. *)
Theorem integer_abs_defined_except_minimum (x : Z) :
  (- 2 ^ 31 <= x < 2 ^ 31 ->
   (x = - 2 ^ 31 -> abs x = None) /\
   (x <> - 2 ^ 31 -> abs x = Some (Z.abs x) /\ 0 <= Z.abs x < 2 ^ 31)) /\
  (- 2 ^ 63 <= x < 2 ^ 63 ->
   (x = - 2 ^ 63 -> labs x = None /\ llabs x = None) /\
   (x <> - 2 ^ 63 ->
    labs x = Some (Z.abs x) /\ llabs x = Some (Z.abs x) /\
    0 <= Z.abs x < 2 ^ 63)).
Proof.
  split; intros Hx; unfold abs, labs, llabs.
  - destruct (Z.ltb_spec x 0) as [Hneg|Hpos].
    + destruct (neg_signed_cases 32 x) as [[E ->]|[E ->]];
        [lia|change (2 ^ (32 - 1)) with (2 ^ 31); lia| |];
        change (2 ^ (32 - 1)) with (2 ^ 31) in E.
      * split; [reflexivity|contradiction].
      * split; [contradiction|]. intros _. split; [reflexivity|lia].
    + split; [lia|]. intros _. rewrite Z.abs_eq by lia. split; [reflexivity|lia].
  - destruct (Z.ltb_spec x 0) as [Hneg|Hpos].
    + destruct (neg_signed_cases 64 x) as [[E ->]|[E ->]];
        [lia|change (2 ^ (64 - 1)) with (2 ^ 63); lia| |];
        change (2 ^ (64 - 1)) with (2 ^ 63) in E.
      * split; [auto|contradiction].
      * split; [contradiction|]. intros _. repeat split; lia.
    + split; [lia|]. intros _. rewrite Z.abs_eq by lia. repeat split; lia.
Qed.

(** ** Sign and class of a [double] *)

Lemma fabs_bits (x n : Z) :
  0 <= n -> Z.testbit (Portable.fabs x) n = Z.testbit x n && (n <? 63).
Proof.
  intros Hn. unfold Portable.fabs. change 0x7FFFFFFFFFFFFFFF with (Z.ones 63).
  rewrite Z.land_spec, Z.testbit_ones_nonneg by lia. reflexivity.
Qed.

Lemma copysign_bits (x y n : Z) :
  0 <= n ->
  Z.testbit (copysign x y) n =
    if n =? 63 then Z.testbit y 63 else Z.testbit x n && (n <? 63).
Proof.
  intros Hn. unfold copysign. change 0x7FFFFFFFFFFFFFFF with (Z.ones 63).
  change 0x8000000000000000 with (2 ^ 63).
  rewrite Z.lor_spec, !Z.land_spec, Z.testbit_ones_nonneg, Z.pow2_bits_eqb by lia.
  rewrite (Z.eqb_sym 63 n).
  destruct (Z.eqb_spec n 63) as [->|Hne].
  - rewrite andb_true_r. destruct (Z.testbit x 63); reflexivity.
  - rewrite andb_false_r, orb_false_r. reflexivity.
Qed.

Lemma signbit_testbit (x : Z) : signbit x = Z.b2z (Z.testbit x 63).
Proof.
  unfold signbit. change 1 with (Z.ones 1) at 1.
  rewrite Z.land_ones, Z.shiftr_div_pow2, Z.testbit_spec' by lia. reflexivity.
Qed.

Lemma magnitude_fields (r x : Z) :
  (forall n, 0 <= n < 63 -> Z.testbit r n = Z.testbit x n) ->
  exp_field r = exp_field x /\ frac_field r = frac_field x.
Proof.
  intros H. unfold exp_field, frac_field.
  change 0x7FF with (Z.ones 11). change 0xFFFFFFFFFFFFF with (Z.ones 52).
  split; apply Z.bits_inj'; intros n Hn;
    rewrite !Z.land_spec, ?Z.shiftr_spec, !Z.testbit_ones_nonneg by lia.
  - destruct (Z.ltb_spec n 11); [|rewrite !andb_false_r; reflexivity].
    rewrite H by lia. reflexivity.
  - destruct (Z.ltb_spec n 52); [|rewrite !andb_false_r; reflexivity].
    rewrite H by lia. reflexivity.
Qed.

(** The value of the same magnitude and of sign [s]. *)
Lemma SF_of_bits_magnitude (r x : Z) :
  exp_field r = exp_field x -> frac_field r = frac_field x ->
  SF_of_bits r =
    if sign_field r then SFopp (SFabs (SF_of_bits x)) else SFabs (SF_of_bits x).
Proof.
  intros He Hf. unfold SF_of_bits. rewrite He, Hf.
  destruct (exp_field x =? 0x7FF); [destruct (frac_field x =? 0), (sign_field r); reflexivity|].
  destruct (exp_field x =? 0); [destruct (frac_field x =? 0)|]; destruct (sign_field r); reflexivity.
Qed.

Lemma class_of_magnitude (r x : Z) :
  exp_field r = exp_field x -> frac_field r = frac_field x ->
  isnan r = isnan x /\ isinf r = isinf x /\ isfinite r = isfinite x.
Proof.
  unfold exp_field, frac_field, isnan, isinf, isfinite. intros -> ->. auto.
Qed.

Lemma land_ones_range (x k : Z) : 0 <= k -> 0 <= Z.land x (Z.ones k) < 2 ^ k.
Proof. intros Hk. rewrite Z.land_ones by exact Hk. apply Z.mod_pos_bound. lia. Qed.

Lemma fabs_range (x : Z) : 0 <= Portable.fabs x < 2 ^ 63.
Proof. apply (land_ones_range x 63). lia. Qed.

(** X23.  [fabs] clears the sign bit and nothing else, on either build:
    the result denotes the absolute value of the argument, has
    [signbit] 0, is in the same class (NaN, infinite, finite), and
    [fabs] of it is itself. *)
Theorem fabs_clears_sign_bit (x : Z) :
  X86_64.fabs x = Portable.fabs x /\
  signbit (Portable.fabs x) = 0 /\
  SF_of_bits (Portable.fabs x) = SFabs (SF_of_bits x) /\
  (isnan (Portable.fabs x) = isnan x /\ isinf (Portable.fabs x) = isinf x /\
   isfinite (Portable.fabs x) = isfinite x) /\
  Portable.fabs (Portable.fabs x) = Portable.fabs x.
Proof.
  assert (Hs : Z.testbit (Portable.fabs x) 63 = false).
  { rewrite fabs_bits by lia. apply andb_false_r. }
  destruct (magnitude_fields (Portable.fabs x) x) as [He Hf].
  { intros n Hn. rewrite fabs_bits by lia.
    destruct (Z.ltb_spec n 63); [apply andb_true_r|lia]. }
  split; [reflexivity|]. split; [rewrite signbit_testbit, Hs; reflexivity|].
  split; [|split; [apply class_of_magnitude; assumption|]].
  - rewrite (SF_of_bits_magnitude _ x He Hf). unfold sign_field. rewrite Hs. reflexivity.
  - apply Z.bits_inj'. intros n Hn. rewrite !fabs_bits by lia.
    destruct (n <? 63), (Z.testbit x n); reflexivity.
Qed.

(** X24.  [copysign(x, y)] has the sign of [y] and the magnitude of [x]:
    its [signbit] is that of [y], its [fabs] that of [x], it denotes the
    absolute value of [x] with the sign bit of [y], it is in the class of
    [x], [copysign(x, x)] is [x], and a second [copysign] overrides the
    first. *)
Theorem copysign_sign_and_magnitude (x y z : Z) :
  signbit (copysign x y) = signbit y /\
  Portable.fabs (copysign x y) = Portable.fabs x /\
  SF_of_bits (copysign x y) =
    (if sign_field y then SFopp (SFabs (SF_of_bits x))
     else SFabs (SF_of_bits x)) /\
  (isnan (copysign x y) = isnan x /\ isinf (copysign x y) = isinf x /\
   isfinite (copysign x y) = isfinite x) /\
  (is_double x -> copysign x x = x) /\
  copysign (copysign x y) z = copysign x z.
Proof.
  assert (Hs : sign_field (copysign x y) = sign_field y).
  { unfold sign_field. rewrite copysign_bits by lia. reflexivity. }
  destruct (magnitude_fields (copysign x y) x) as [He Hf].
  { intros n Hn. rewrite copysign_bits by lia.
    destruct (Z.eqb_spec n 63); [lia|].
    destruct (Z.ltb_spec n 63); [apply andb_true_r|lia]. }
  split; [rewrite !signbit_testbit; f_equal; exact Hs|].
  split.
  { apply Z.bits_inj'. intros n Hn. rewrite !fabs_bits, copysign_bits by lia.
    destruct (Z.eqb_spec n 63) as [->|]; [rewrite !andb_false_r; reflexivity|].
    destruct (n <? 63), (Z.testbit x n); reflexivity. }
  split; [rewrite (SF_of_bits_magnitude _ x He Hf), Hs; reflexivity|].
  split; [apply class_of_magnitude; assumption|].
  split.
  - intros [Hx0 Hx1]. apply Z.bits_inj'. intros n Hn. rewrite copysign_bits by lia.
    destruct (Z.eqb_spec n 63) as [->|Hne]; [reflexivity|].
    destruct (Z.ltb_spec n 63); [apply andb_true_r|].
    rewrite andb_false_r. symmetry.
    apply (Z.bits_above_log2 x n); [exact Hx0|].
    destruct (decide (x = 0)) as [->|Hx]; [simpl; lia|].
    apply Z.log2_lt_pow2; [lia|].
    apply Z.lt_le_trans with (2 ^ 64); [exact Hx1|].
    apply Z.pow_le_mono_r; lia.
  - apply Z.bits_inj'. intros n Hn. rewrite !copysign_bits by lia.
    destruct (Z.eqb_spec n 63) as [->|Hne]; [reflexivity|].
    destruct (n <? 63), (Z.testbit x n); reflexivity.
Qed.

(** X25.  Every bit pattern is in exactly one of the classes that
    [isnan], [isinf] and [isfinite] test, and the class is that of the
    value it denotes: a NaN, an infinity, or a zero or finite number. *)
Theorem double_classes_partition (x : Z) :
  Z.b2z (isnan x) + Z.b2z (isinf x) + Z.b2z (isfinite x) = 1 /\
  (isnan x = true <-> SF_of_bits x = S754_nan) /\
  (isinf x = true <-> exists s, SF_of_bits x = S754_infinity s) /\
  (isfinite x = true <->
   (exists s, SF_of_bits x = S754_zero s) \/
   (exists s m e, SF_of_bits x = S754_finite s m e)).
Proof.
  unfold isnan, isinf, isfinite, SF_of_bits, exp_field, frac_field.
  destruct (Z.land (Z.shiftr x 52) 0x7FF =? 0x7FF);
    destruct (Z.land x 0xFFFFFFFFFFFFF =? 0); cbn;
    try destruct (Z.land (Z.shiftr x 52) 0x7FF =? 0);
    (split; [reflexivity|]);
    (split; [split; intros H; (discriminate || reflexivity)|]);
    (split; [split; [intros H; (discriminate || eauto)
                    |intros [s H]; (discriminate || reflexivity)]|]);
    (split; [intros H; (discriminate || eauto 6)
            |intros [[s H]|(s & m & e & H)]; (discriminate || reflexivity)]).
Qed.

Lemma class_finite_SF (x : Z) :
  isfinite x = true ->
  (exists s, SF_of_bits x = S754_zero s) \/
  (exists s m e, SF_of_bits x = S754_finite s m e).
Proof.
  unfold isfinite, SF_of_bits, exp_field, frac_field.
  destruct (Z.land (Z.shiftr x 52) 0x7FF =? 0x7FF); [discriminate|]. intros _.
  destruct (Z.land (Z.shiftr x 52) 0x7FF =? 0);
    [destruct (Z.land x 0xFFFFFFFFFFFFF =? 0)|]; eauto 6.
Qed.

Lemma class_inf_SF (x : Z) :
  isinf x = true -> exists s, SF_of_bits x = S754_infinity s.
Proof.
  unfold isinf, SF_of_bits, exp_field, frac_field.
  destruct (Z.land (Z.shiftr x 52) 0x7FF =? 0x7FF); [|discriminate].
  destruct (Z.land x 0xFFFFFFFFFFFFF =? 0); [eauto|discriminate].
Qed.

Lemma class_not_finite_SF (x : Z) :
  isfinite x = false ->
  SF_of_bits x = S754_nan \/ exists s, SF_of_bits x = S754_infinity s.
Proof.
  unfold isfinite, SF_of_bits, exp_field, frac_field.
  destruct (Z.land (Z.shiftr x 52) 0x7FF =? 0x7FF); [|discriminate]. intros _.
  destruct (Z.land x 0xFFFFFFFFFFFFF =? 0); eauto.
Qed.

(** ** The rounding functions, [sqrt] and [fmod] away from the finite
    range *)

Lemma exp_field_range (x : Z) : 0 <= exp_field x < 2 ^ 11.
Proof. apply (land_ones_range (Z.shiftr x 52) 11). lia. Qed.

Lemma frac_field_range (x : Z) : 0 <= frac_field x < 2 ^ 52.
Proof. apply (land_ones_range x 52). lia. Qed.

Lemma double_fields (x : Z) :
  is_double x ->
  x = sign_bits (sign_field x) + exp_field x * 2 ^ 52 + frac_field x.
Proof.
  intros Hx. unfold exp_field, frac_field, sign_field.
  change 0x7FF with (Z.ones 11). change 0xFFFFFFFFFFFFF with (Z.ones 52).
  rewrite !Z.land_ones, Z.shiftr_div_pow2, Z.testbit_odd, Z.shiftr_div_pow2 by lia.
  unfold is_double in Hx.
  assert (Hq : x / 2 ^ 63 = 0 \/ x / 2 ^ 63 = 1).
  { assert (0 <= x / 2 ^ 63 < 2); [|lia].
    split; [apply Z.div_pos; lia|apply Z.div_lt_upper_bound; lia]. }
  assert (Hd : x / 2 ^ 63 = x / 2 ^ 52 / 2 ^ 11)
    by (rewrite Z.div_div by lia; reflexivity).
  pose proof (Z.div_mod x (2 ^ 52)). pose proof (Z.div_mod (x / 2 ^ 52) (2 ^ 11)).
  destruct Hq as [Hq|Hq]; rewrite Hq; cbn [Z.odd sign_bits]; lia.
Qed.

Lemma ll_of_double_large (x : Z) :
  1086 <= exp_field x ->
  ~ (sign_field x = true /\ exp_field x = 1086 /\ frac_field x = 0) ->
  ll_of_double x = None.
Proof.
  intros He Hmin. unfold ll_of_double, SF_of_bits.
  pose proof (frac_field_range x) as Hf.
  destruct (Z.eqb_spec (exp_field x) 0x7FF) as [_|Hinf];
    [destruct (frac_field x =? 0); reflexivity|].
  destruct (Z.eqb_spec (exp_field x) 0) as [E0|_]; [lia|].
  destruct (Z.leb_spec 0 (exp_field x - 1075)) as [_|]; [|lia].
  rewrite Z2Pos.id by lia. rewrite Z.shiftl_mul_pow2 by lia.
  set (e := exp_field x - 1075) in *.
  assert (He11 : 2 ^ 11 <= 2 ^ e) by (apply Z.pow_le_mono_r; lia).
  assert (Hq : 2 ^ 63 <= (frac_field x + 2 ^ 52) * 2 ^ e).
  { change (2 ^ 63) with (2 ^ 52 * 2 ^ 11). apply Z.mul_le_mono_nonneg; lia. }
  destruct (sign_field x) eqn:Hs.
  - assert (Hlt : 2 ^ 63 < (frac_field x + 2 ^ 52) * 2 ^ e).
    { destruct (decide (frac_field x = 0)) as [Hf0|Hf0].
      - assert (e <> 11) by (intros E; apply Hmin; repeat split; [|exact Hf0]; lia).
        assert (2 ^ 12 <= 2 ^ e) by (apply Z.pow_le_mono_r; lia).
        apply Z.lt_le_trans with (2 ^ 52 * 2 ^ 12); [reflexivity|].
        apply Z.mul_le_mono_nonneg; lia.
      - apply Z.lt_le_trans with ((2 ^ 52 + 1) * 2 ^ 11); [reflexivity|].
        apply Z.mul_le_mono_nonneg; lia. }
    destruct (Z.leb_spec (- 2 ^ 63) (- ((frac_field x + 2 ^ 52) * 2 ^ e))); [lia|reflexivity].
  - destruct (Z.ltb_spec ((frac_field x + 2 ^ 52) * 2 ^ e) (2 ^ 63)); [lia|].
    rewrite andb_false_r. reflexivity.
Qed.

(** X26.  The portable [trunc], [floor] and [ceil] have no defined result
    for any [double] whose biased exponent is 1086 or more, that is, for
    every number of magnitude [2^63] or more, every infinity and every
    NaN, with the one exception of [-2^63], which [long long] can hold. *)
Theorem portable_rounding_undefined_from_2_63 (x : Z) :
  is_double x -> 1086 <= exp_field x -> x <> 0xC3E0000000000000 ->
  Portable.trunc x = None /\ Portable.floor x = None /\
  Portable.ceil x = None.
Proof.
  intros Hx He Hne.
  assert (Hll : ll_of_double x = None).
  { apply ll_of_double_large; [exact He|]. intros (Hs & He' & Hf). apply Hne.
    rewrite (double_fields x Hx), Hs, He', Hf. reflexivity. }
  assert (Ht : Portable.trunc x = None).
  { unfold Portable.trunc. rewrite Hll. destruct (dge x d_0_0); reflexivity. }
  unfold Portable.floor, Portable.ceil. rewrite Ht. auto.
Qed.

Lemma special_bits (x : Z) :
  is_double x ->
  (exists s, SF_of_bits x = S754_zero s) \/
  (exists s, SF_of_bits x = S754_infinity s) ->
  bits_of_SF (SF_of_bits x) = x.
Proof.
  intros Hx H. rewrite (double_fields x Hx) at 2. revert H. unfold SF_of_bits.
  destruct (Z.eqb_spec (exp_field x) 0x7FF) as [He|He].
  - destruct (Z.eqb_spec (frac_field x) 0) as [Hf|Hf].
    + intros _. rewrite He, Hf. cbn [bits_of_SF]. lia.
    + intros [[s H]|[s H]]; discriminate.
  - destruct (Z.eqb_spec (exp_field x) 0) as [He0|He0].
    + destruct (Z.eqb_spec (frac_field x) 0) as [Hf|Hf].
      * intros _. rewrite He0, Hf. cbn [bits_of_SF]. lia.
      * intros [[s H]|[s H]]; discriminate.
    + intros [[s H]|[s H]]; discriminate.
Qed.

(** X27.  Zeros and infinities under the rounding functions: the x86-64
    [trunc], [floor] and [ceil] return such an argument unchanged,
    whatever the control word; the portable [trunc], [floor] and [ceil]
    return positive zero for a zero of either sign. *)
Theorem rounding_of_zero_and_infinity (cw x : Z) :
  is_double x ->
  (exists s, SF_of_bits x = S754_zero s) \/
  (exists s, SF_of_bits x = S754_infinity s) ->
  (X86_64.trunc cw x = x /\ X86_64.floor cw x = x /\ X86_64.ceil cw x = x) /\
  ((exists s, SF_of_bits x = S754_zero s) ->
   Portable.trunc x = Some d_0_0 /\ Portable.floor x = Some d_0_0 /\
   Portable.ceil x = Some d_0_0).
Proof.
  intros Hx H. pose proof (special_bits x Hx H) as Hb. split.
  - assert (Hr : forall rc, fstpl (frndint rc (fldl x)) = x).
    { intros rc. unfold fldl.
      destruct H as [[s H]|[s H]]; rewrite H in *; exact Hb. }
    unfold X86_64.trunc, X86_64.floor, X86_64.ceil. rewrite !Hr. auto.
  - intros [s Hz].
    assert (Ht : Portable.trunc x = Some d_0_0).
    { unfold Portable.trunc, ll_of_double. rewrite Hz.
      destruct (dge x d_0_0); reflexivity. }
    unfold Portable.floor, Portable.ceil. rewrite Ht. cbn [mbind option_bind].
    unfold dgt, dlt. rewrite Hz, SF_of_bits_zero.
    destruct s; auto.
Qed.

Lemma nan_sqrt_step (x : Z) :
  SF_of_bits x = S754_nan ->
  dmul (dadd x (ddiv x x)) d_0_5 = 0x7FF8000000000000.
Proof. intros H. unfold dmul, dadd, ddiv. rewrite H. vm_compute. reflexivity. Qed.

Lemma nan_dsub_r (g x : Z) :
  SF_of_bits x = S754_nan -> dsub g x = 0x7FF8000000000000.
Proof.
  intros H. unfold dsub. rewrite H.
  destruct (SF_of_bits g) as [[]|[]| |[] m e]; reflexivity.
Qed.

Lemma nan_sqrt_loop (x : Z) (fuel : nat) :
  SF_of_bits x = S754_nan ->
  Portable.sqrt (S fuel) x = Some 0x7FF8000000000000.
Proof.
  intros Hn. unfold Portable.sqrt, dlt, deq. rewrite Hn. cbn [SFltb SFeqb SFcompare].
  rewrite sqrt_loop_S, (nan_sqrt_step x Hn), (nan_dsub_r _ x Hn).
  reflexivity.
Qed.

Lemma infinity_sqrt_loop (fuel : nat) :
  Portable.sqrt (S fuel) 0x7FF0000000000000 = Some 0x7FF8000000000000.
Proof.
  unfold Portable.sqrt.
  change (dlt 0x7FF0000000000000 d_0_0) with false.
  change (deq 0x7FF0000000000000 d_0_0) with false.
  cbv iota. rewrite sqrt_loop_S.
  replace (dmul (dadd 0x7FF0000000000000
                   (ddiv 0x7FF0000000000000 0x7FF0000000000000)) d_0_5)
    with 0x7FF8000000000000 by (vm_compute; reflexivity).
  replace (dgt (Portable.fabs (dsub 0x7FF8000000000000 0x7FF0000000000000))
             d_1e_15) with false by (vm_compute; reflexivity).
  reflexivity.
Qed.

(** X28.  [sqrt] of a NaN is a NaN on both builds, the portable loop
    stopping after one iteration; [sqrt] of positive infinity is positive
    infinity on the x86-64 build and a NaN on the portable build. *)
Theorem sqrt_of_nan_and_infinity (x : Z) (fuel : nat) :
  (isnan x = true ->
   (exists r, Portable.sqrt (S fuel) x = Some r /\ isnan r = true) /\
   isnan (X86_64.sqrt x) = true) /\
  (exists r,
     Portable.sqrt (S fuel) 0x7FF0000000000000 = Some r /\ isnan r = true) /\
  X86_64.sqrt 0x7FF0000000000000 = 0x7FF0000000000000.
Proof.
  split; [|split; [|vm_compute; reflexivity]].
  - intros Hn. apply isnan_SF in Hn. split.
    + eexists. split; [apply nan_sqrt_loop, Hn|reflexivity].
    + unfold X86_64.sqrt, fldl. rewrite Hn. reflexivity.
  - eexists. split; [apply infinity_sqrt_loop|reflexivity].
Qed.

Lemma SF_of_bits_of_zero (s : bool) : SF_of_bits (bits_of_SF (S754_zero s)) = S754_zero s.
Proof. destruct s; reflexivity. Qed.

Lemma SF_of_bits_of_infinity (s : bool) :
  SF_of_bits (bits_of_SF (S754_infinity s)) = S754_infinity s.
Proof. destruct s; reflexivity. Qed.

Lemma SF_of_bits_of_nan : SF_of_bits (bits_of_SF S754_nan) = S754_nan.
Proof. reflexivity. Qed.

Lemma trunc_not_finite (q : Z) :
  SF_of_bits q = S754_nan \/ (exists s, SF_of_bits q = S754_infinity s) ->
  Portable.trunc q = None.
Proof.
  intros H. assert (Hll : ll_of_double q = None).
  { unfold ll_of_double. destruct H as [->|[s ->]]; reflexivity. }
  unfold Portable.trunc. rewrite Hll. destruct (dge q d_0_0); reflexivity.
Qed.

(** X29.  [fmod] away from finite operands.  For a finite [x] and an
    infinite [y] the portable build returns a NaN, since the quotient is
    zero and zero times infinity is NaN.  For an infinite or NaN [x] and a
    [y] that does not compare equal to zero the portable build has no
    defined result, the conversion of the quotient being undefined, and
    the x86-64 build returns a NaN. *)
Theorem fmod_away_from_finite (x y : Z) (fuel : nat) (N : Z) :
  (isfinite x = true -> isinf y = true ->
   exists r, Portable.fmod x y = Some r /\ isnan r = true) /\
  (isfinite x = false -> deq y d_0_0 = false ->
   Portable.fmod x y = None /\
   exists r, X86_64.fmod (S fuel) N x y = Some r /\ isnan r = true).
Proof.
  split.
  - intros Hx Hy. exists 0x7FF8000000000000. split; [|reflexivity].
    apply class_finite_SF in Hx.
    apply class_inf_SF in Hy. destruct Hy as [sy Hy].
    unfold Portable.fmod, deq. rewrite Hy, SF_of_bits_zero.
    replace (SFeqb (S754_infinity sy) (S754_zero false)) with false
      by (destruct sy; reflexivity).
    assert (Hq : exists s, SF_of_bits (ddiv x y) = S754_zero s).
    { unfold ddiv. rewrite Hy.
      destruct Hx as [[s Hx]|(s & m & e & Hx)]; rewrite Hx; cbn [SFdiv];
        eexists; apply SF_of_bits_of_zero. }
    destruct Hq as [s Hq].
    assert (Ht : Portable.trunc (ddiv x y) = Some 0).
    { unfold Portable.trunc, ll_of_double. rewrite Hq.
      destruct (dge (ddiv x y) d_0_0); reflexivity. }
    rewrite Ht. cbn [mbind option_bind]. f_equal.
    assert (Hm : SF_of_bits (dmul 0 y) = S754_nan).
    { unfold dmul. rewrite Hy. destruct sy; reflexivity. }
    apply nan_dsub_r, Hm.
  - intros Hx Hy.
    assert (Hx' : SF_of_bits x = S754_nan \/ exists s, SF_of_bits x = S754_infinity s).
    { apply class_not_finite_SF, Hx. }
    split.
    + unfold Portable.fmod. rewrite Hy.
      rewrite trunc_not_finite; [reflexivity|].
      unfold ddiv. unfold deq in Hy. rewrite SF_of_bits_zero in Hy.
      destruct Hx' as [->|[s ->]].
      * left. reflexivity.
      * destruct (SF_of_bits y) as [sy|sy| |sy my ey]; cbn [SFdiv].
        -- destruct sy; discriminate.
        -- left. reflexivity.
        -- left. reflexivity.
        -- right. eexists. apply SF_of_bits_of_infinity.
    + exists 0x7FF8000000000000. split; [|reflexivity].
      unfold X86_64.fmod. cbn [fprem_loop].
      assert (Hl : fldl x = SF_of_bits x).
      { unfold fldl. destruct Hx' as [->|[s ->]]; reflexivity. }
      rewrite Hl.
      assert (Hp : fprem N (SF_of_bits x) (fldl y) = (S754_nan, false)).
      { destruct Hx' as [->|[s ->]]; [reflexivity|].
        unfold fprem. destruct (fldl y); reflexivity. }
      rewrite Hp. reflexivity.
Qed.

(** ** [fminf] and [fmaxf] *)

Lemma SFeqb_self (a : spec_float) : a <> S754_nan -> SFeqb a a = true.
Proof.
  intros Ha. unfold SFeqb.
  destruct a as [[]|[]| |[] m e]; cbn; try reflexivity; try congruence;
    rewrite Z.compare_refl, Pos.compare_cont_refl; reflexivity.
Qed.

Lemma fne_self_nan (x : Z) : SF_of_bits32 x = S754_nan -> fne x x = true.
Proof. intros H. unfold fne. rewrite H. reflexivity. Qed.

Lemma fne_self_number (x : Z) : SF_of_bits32 x <> S754_nan -> fne x x = false.
Proof. intros H. unfold fne. rewrite SFeqb_self by exact H. reflexivity. Qed.

(** X30.  [fminf] and [fmaxf], which test for a NaN by [x != x]: when the
    first argument is a NaN both return the second, a NaN or not; when
    only the second is a NaN both return the first; when neither is,
    [fminf] returns one of the arguments that is at most both and
    [fmaxf] one that is at least both. *)
Theorem fminf_fmaxf_nan_tolerant (x y : Z) :
  (SF_of_bits32 x = S754_nan -> fminf x y = y /\ fmaxf x y = y) /\
  (SF_of_bits32 x <> S754_nan -> SF_of_bits32 y = S754_nan ->
   fminf x y = x /\ fmaxf x y = x) /\
  (SF_of_bits32 x <> S754_nan -> SF_of_bits32 y <> S754_nan ->
   (fminf x y = x \/ fminf x y = y) /\
   fle (fminf x y) x = true /\ fle (fminf x y) y = true /\
   (fmaxf x y = x \/ fmaxf x y = y) /\
   fle x (fmaxf x y) = true /\ fle y (fmaxf x y) = true).
Proof.
  unfold fminf, fmaxf, fgt, flt, fle. split; [|split].
  - intros Hx. rewrite (fne_self_nan x Hx). now split.
  - intros Hx Hy. rewrite (fne_self_number x Hx), (fne_self_nan y Hy). now split.
  - intros Hx Hy. rewrite (fne_self_number x Hx), (fne_self_number y Hy).
    destruct (SFltb (SF_of_bits32 x) (SF_of_bits32 y)) eqn:Exy;
      destruct (SFltb (SF_of_bits32 y) (SF_of_bits32 x)) eqn:Eyx;
      repeat split; auto using SFleb_refl, SFltb_leb, SFltb_false_leb.
Qed.

(** ** The further properties at concrete inputs *)

Lemma demo_allocated (a n : Z) : 0 <= a -> a + n <= 16 -> allocated demo a n.
Proof.
  intros Ha Hn i Hi.
  assert (H : a + i = 0 \/ a + i = 1 \/ a + i = 2 \/ a + i = 3 \/ a + i = 4 \/
              a + i = 5 \/ a + i = 6 \/ a + i = 7 \/ a + i = 8 \/ a + i = 9 \/
              a + i = 10 \/ a + i = 11 \/ a + i = 12 \/ a + i = 13 \/
              a + i = 14 \/ a + i = 15) by lia.
  repeat (destruct H as [H|H]; [rewrite H; vm_compute; eauto|]).
  rewrite H; vm_compute; eauto.
Qed.

Lemma demo_hi_0 : cstring demo 0 [Byte.x68; Byte.x69].
Proof. cbn [cstring]. repeat split; (vm_compute; reflexivity) || discriminate. Qed.

Lemma demo_abc_3 : cstring demo 3 [Byte.x61; Byte.x62; Byte.x63].
Proof. cbn [cstring]. repeat split; (vm_compute; reflexivity) || discriminate. Qed.

Lemma demo_hi_7 : cstring demo 7 [Byte.x68; Byte.x69].
Proof. cbn [cstring]. repeat split; (vm_compute; reflexivity) || discriminate. Qed.

(** [memset(1, 0x141, 2)] over ["ABCD"]: the bytes written are [0x41]. *)
Lemma memset_fills_range_witness :
  exists m',
    X86_64.memset abcd 1 0x141 2 = Some (m', 1) /\
    Portable.memset abcd 1 0x141 2 = Some (m', 1) /\
    (forall i, 0 <= i < 2 ->
       exists b, m' !! (1 + i) = Some b /\ u8 b = 0x141 mod 256) /\
    (forall a, ~ (1 <= a < 1 + 2) -> m' !! a = abcd !! a).
Proof.
  apply (memset_fills_range abcd 1 0x141 2).
  - apply size_t_small. lia.
  - apply abcd_allocated; lia.
Defined.

(** [memset(2, 0, 3)] over ["ABCD"] runs past the fourth byte. *)
Lemma memset_out_of_bounds_witness :
  X86_64.memset abcd 2 0 3 = None /\ Portable.memset abcd 2 0 3 = None.
Proof.
  apply (memset_out_of_bounds abcd 2 0 3 2).
  - lia.
  - vm_compute. reflexivity.
Defined.

(** [memmove(1, 0, 3)] over ["ABCD"]. *)
Lemma memmove_changes_only_dest_witness :
  exists m',
    X86_64.memmove abcd 1 0 3 = Some (m', 1) /\
    Portable.memmove abcd 1 0 3 = Some (m', 1) /\
    (forall i, 0 <= i < 3 -> m' !! (1 + i) = abcd !! (0 + i)) /\
    (forall a, ~ (1 <= a < 1 + 3) -> m' !! a = abcd !! a) /\
    (forall a, is_Some (m' !! a) <-> is_Some (abcd !! a)).
Proof.
  apply (memmove_changes_only_dest abcd 1 0 3).
  - apply size_t_small. lia.
  - apply abcd_allocated; lia.
  - apply abcd_allocated; lia.
Defined.

(** [memcpy(2, 0, 2)] over ["ABCD"], then [memcmp(2, 0, 2)]. *)
Lemma memcpy_then_memcmp_is_zero_witness :
  exists m',
    X86_64.memcpy abcd 2 0 2 = Some (m', 2) /\
    (forall k, 0 <= k -> Portable.memcpy (2 ^ k) abcd 2 0 2 = Some (m', 2)) /\
    memcmp m' 2 0 2 = Some 0 /\
    memcmp m' 0 2 2 = Some 0.
Proof.
  apply (memcpy_then_memcmp_is_zero abcd 2 0 2).
  - apply size_t_small. lia.
  - apply abcd_allocated; lia.
  - apply abcd_allocated; lia.
  - intros (a & H1 & H2). lia.
Defined.

(** [memcmp] of ["AB"] and ["CD"] is [-2]. *)
Lemma memcmp_zero_iff_equal_witness :
  -255 <= -2 <= 255 /\
  (-2 = 0 <-> forall i, 0 <= i < 2 -> abcd !! (0 + i) = abcd !! (2 + i)).
Proof.
  apply (memcmp_zero_iff_equal abcd 0 2 2 (-2)).
  - lia.
  - vm_compute. reflexivity.
Defined.

(** The portable [strlen("hi")]. *)
Lemma strlen_counts_bytes_witness : Portable.strlen 3 demo 0 = Some 2.
Proof.
  apply (strlen_counts_bytes demo 0 [Byte.x68; Byte.x69] 3).
  - exact demo_hi_0.
  - vm_compute. reflexivity.
  - unfold len. simpl. lia.
Defined.

(** [strlen] at address 10, where six bytes ['.'] end the memory. *)
Lemma strlen_unterminated_witness :
  X86_64.strlen 100 demo 10 = None /\ Portable.strlen 100 demo 10 = None.
Proof.
  apply (strlen_unterminated demo 10 6 100).
  - split; [lia|vm_compute; reflexivity].
  - intros i Hi. exists Byte.x2e. split; [|discriminate].
    assert (H : i = 0 \/ i = 1 \/ i = 2 \/ i = 3 \/ i = 4 \/ i = 5) by lia.
    destruct H as [H|[H|[H|[H|[H|H]]]]]; rewrite H; vm_compute; reflexivity.
  - vm_compute. reflexivity.
Defined.

(** [strcpy(10, "hi")]. *)
Lemma strcpy_copies_string_witness :
  exists m',
    strcpy 3 demo 10 0 = Some (m', 10) /\
    cstring m' 10 [Byte.x68; Byte.x69] /\ cstring m' 0 [Byte.x68; Byte.x69] /\
    unchanged_outside demo m' 10 (len [Byte.x68; Byte.x69] + 1).
Proof.
  apply (strcpy_copies_string demo 10 0 [Byte.x68; Byte.x69] 3).
  - exact demo_hi_0.
  - apply demo_allocated; unfold len; simpl; lia.
  - right. unfold len. simpl. lia.
  - unfold len. simpl. lia.
Defined.

(** [strncpy(10, "abc", 2)]. *)
Lemma strncpy_long_source_witness :
  exists m',
    strncpy demo 10 3 2 = Some (m', 10) /\
    (forall i, 0 <= i < 2 ->
       exists b, [Byte.x61; Byte.x62; Byte.x63] !! Z.to_nat i = Some b /\
                 m' !! (10 + i) = Some b /\ b <> NUL) /\
    unchanged_outside demo m' 10 2.
Proof.
  apply (strncpy_long_source demo 10 3 2 [Byte.x61; Byte.x62; Byte.x63]).
  - exact demo_abc_3.
  - apply size_t_small. lia.
  - unfold len. simpl. lia.
  - apply demo_allocated; lia.
  - right. unfold len. simpl. lia.
Defined.

(** [strncpy(10, "hi", 5)] writes the six bytes at 10 to 15. *)
Lemma strncpy_short_source_writes_n_plus_1_witness :
  exists m',
    strncpy demo 10 0 5 = Some (m', 10) /\
    cstring m' 10 [Byte.x68; Byte.x69] /\
    (forall i, len [Byte.x68; Byte.x69] <= i <= 5 ->
       m' !! (10 + i) = Some NUL) /\
    unchanged_outside demo m' 10 (5 + 1).
Proof.
  apply (strncpy_short_source_writes_n_plus_1 demo 10 0 5 [Byte.x68; Byte.x69]).
  - exact demo_hi_0.
  - split; [lia|vm_compute; reflexivity].
  - unfold len. simpl. lia.
  - apply demo_allocated; lia.
  - right. unfold len. simpl. lia.
Defined.

(** [strncpy(10, "hi", 6)] into the six bytes that end the memory. *)
Lemma strncpy_short_source_overruns_witness : strncpy demo 10 0 6 = None.
Proof.
  apply (strncpy_short_source_overruns demo 10 0 6 [Byte.x68; Byte.x69]).
  - exact demo_hi_0.
  - split; [lia|vm_compute; reflexivity].
  - unfold len. simpl. lia.
  - apply demo_allocated; lia.
  - vm_compute. reflexivity.
  - right. unfold len. simpl. lia.
Defined.

(** [strcat] of ["hi"] at address 7 and ["abc"]. *)
Lemma strcat_appends_witness :
  exists m',
    strcat 4 demo 7 3 = Some (m', 7) /\
    cstring m' 7 [Byte.x68; Byte.x69; Byte.x61; Byte.x62; Byte.x63] /\
    cstring m' 3 [Byte.x61; Byte.x62; Byte.x63] /\
    unchanged_outside demo m' (7 + len [Byte.x68; Byte.x69])
      (len [Byte.x61; Byte.x62; Byte.x63] + 1).
Proof.
  apply (strcat_appends demo 7 3 [Byte.x68; Byte.x69]
           [Byte.x61; Byte.x62; Byte.x63] 4).
  - exact demo_hi_7.
  - exact demo_abc_3.
  - apply demo_allocated; unfold len; simpl; lia.
  - right. unfold len. simpl. lia.
  - unfold len. simpl. lia.
  - unfold len. simpl. lia.
Defined.

(** [strncat] of ["hi"] at address 7 and the first two bytes of ["abc"]. *)
Lemma strncat_appends_prefix_witness :
  exists m',
    strncat 3 demo 7 3 2 = Some (m', 7) /\
    cstring m' 7 [Byte.x68; Byte.x69; Byte.x61; Byte.x62] /\
    unchanged_outside demo m' (7 + len [Byte.x68; Byte.x69])
      (len [Byte.x61; Byte.x62] + 1).
Proof.
  apply (strncat_appends_prefix demo 7 3 2 [Byte.x68; Byte.x69]
           [Byte.x61; Byte.x62; Byte.x63] 3).
  - exact demo_hi_7.
  - exact demo_abc_3.
  - apply size_t_small. lia.
  - apply demo_allocated; unfold len; simpl; lia.
  - right. unfold len. simpl. lia.
  - unfold len. simpl. lia.
Defined.

(** [strcmp("hi", "abc")] is ['h' - 'a']. *)
Lemma strcmp_orders_strings_witness :
  exists r,
    strcmp 4 demo 0 3 = Some r /\ strcmp 4 demo 3 0 = Some (- r) /\
    r = 7 /\
    (r = 0 <-> [Byte.x68; Byte.x69] = [Byte.x61; Byte.x62; Byte.x63]).
Proof.
  apply (strcmp_orders_strings demo 0 3 [Byte.x68; Byte.x69]
           [Byte.x61; Byte.x62; Byte.x63] 4).
  - exact demo_hi_0.
  - exact demo_abc_3.
  - unfold len. simpl. lia.
  - unfold len. simpl. lia.
Defined.

(** [strncmp("hi", "hi", 1)]. *)
Lemma strncmp_compares_prefixes_witness :
  exists r,
    strncmp demo 0 7 1 = Some r /\ r = 0 /\
    (r = 0 <-> [Byte.x68] = [Byte.x68]).
Proof.
  apply (strncmp_compares_prefixes demo 0 7 1 [Byte.x68; Byte.x69]
           [Byte.x68; Byte.x69]).
  - exact demo_hi_0.
  - exact demo_hi_7.
  - apply size_t_small. lia.
Defined.

(** [strchr("abc", 'b')]. *)
Lemma strchr_finds_first_witness : strchr 4 demo 3 0x62 = Some 4.
Proof.
  apply (strchr_finds_first demo 3 0x62 [Byte.x61; Byte.x62; Byte.x63] 4).
  - exact demo_abc_3.
  - unfold len. simpl. lia.
Defined.

(** [strrchr("hi", 0)] is the address of the terminator. *)
Lemma strrchr_finds_last_witness : strrchr 3 demo 0 0 = Some 2.
Proof.
  apply (strrchr_finds_last demo 0 0 [Byte.x68; Byte.x69] 3).
  - exact demo_hi_0.
  - unfold len. simpl. lia.
Defined.

(** [ffs(40)] is 4. *)
Lemma ffs_is_lowest_set_bit_witness :
  (Portable.ffs 40 = 0 <-> 40 = 0) /\
  (40 <> 0 -> 1 <= Portable.ffs 40 <= 32 /\ lowest_set_bit 40 (Portable.ffs 40 - 1)).
Proof.
  apply (ffs_is_lowest_set_bit 40).
  split; [vm_compute; discriminate|vm_compute; reflexivity].
Defined.

(** [ffsll(2^40)] is 41. *)
Lemma ffsll_is_lowest_set_bit_witness :
  Portable.ffsl (2 ^ 40) = Portable.ffsll (2 ^ 40) /\
  (Portable.ffsll (2 ^ 40) = 0 <-> 2 ^ 40 = 0) /\
  (2 ^ 40 <> 0 ->
   1 <= Portable.ffsll (2 ^ 40) <= 64 /\
   lowest_set_bit (2 ^ 40) (Portable.ffsll (2 ^ 40) - 1)).
Proof.
  apply (ffsll_is_lowest_set_bit (2 ^ 40)).
  split; [vm_compute; discriminate|vm_compute; reflexivity].
Defined.

(** Positive infinity under the portable rounding functions. *)
Lemma portable_rounding_undefined_from_2_63_witness :
  Portable.trunc 0x7FF0000000000000 = None /\
  Portable.floor 0x7FF0000000000000 = None /\
  Portable.ceil 0x7FF0000000000000 = None.
Proof.
  apply (portable_rounding_undefined_from_2_63 0x7FF0000000000000).
  - split; [vm_compute; discriminate|vm_compute; reflexivity].
  - vm_compute. discriminate.
  - discriminate.
Defined.

(** Negative zero under the rounding functions. *)
Lemma rounding_of_zero_and_infinity_witness :
  (X86_64.trunc fpu_cw_default 0x8000000000000000 = 0x8000000000000000 /\
   X86_64.floor fpu_cw_default 0x8000000000000000 = 0x8000000000000000 /\
   X86_64.ceil fpu_cw_default 0x8000000000000000 = 0x8000000000000000) /\
  ((exists s, SF_of_bits 0x8000000000000000 = S754_zero s) ->
   Portable.trunc 0x8000000000000000 = Some d_0_0 /\
   Portable.floor 0x8000000000000000 = Some d_0_0 /\
   Portable.ceil 0x8000000000000000 = Some d_0_0).
Proof.
  apply (rounding_of_zero_and_infinity fpu_cw_default 0x8000000000000000).
  - split; [vm_compute; discriminate|vm_compute; reflexivity].
  - left. exists true. vm_compute. reflexivity.
Defined.
